(** * Distributed health monitoring: scheduler, worker, hub and state machine

    A shallow embedding of the Go sources (models, Repository, Service) and
    the properties of the specification that are checked against them.

    Conventions of the embedding:
    - [int64] and [time.Duration] values are [Z] with the two's-complement
      wrap-around of Go written out ([Int64.wrap]); [int] (status codes) is [Z];
      [uint] identifiers are [N];
    - a [time.Time] is the number of nanoseconds since the Unix epoch, a [Z];
      a nil [*time.Time] is [None];
    - Go's [(value, error)] results are pairs of options, [None] for nil;
    - the tables of the database, the service cache and everything the worker
      and the scheduler do to the broker, the hub and the log are fields of
      [World]; code that touches them runs in the state monad [M];
    - what the outside decides (whether a query fails, what the probed server
      answers, the clock, the order in which a map is ranged over) is an
      explicit argument. *)

From stdpp Require Import gmap strings list fin_maps sorting pretty.
From Stdlib Require Import ZArith Lia.

Local Open Scope string_scope.
Local Open Scope Z_scope.

(** ** Machine integers and time *)

Module Int64.

Definition min_int : Z := - 2 ^ 63.
Definition max_int : Z := 2 ^ 63 - 1.

(** Two's-complement reduction to 64 bits, the result of every Go [int64]
    operation. *)
Definition wrap (z : Z) : Z := (z + 2 ^ 63) mod 2 ^ 64 - 2 ^ 63.

Definition in_range (z : Z) : Prop := min_int <= z <= max_int.

Definition add (a b : Z) : Z := wrap (a + b).
Definition mul (a b : Z) : Z := wrap (a * b).

End Int64.

Module time.

(** [time.Time]: nanoseconds since the epoch. *)
Definition Time : Type := Z.
(** [time.Duration]: an [int64] count of nanoseconds. *)
Definition Duration : Type := Z.

Definition Second : Duration := 1000000000.

(** [t.Add(d)] *)
Definition Add (t : Time) (d : Duration) : Time := t + d.
(** [t.After(u)] *)
Definition After (t u : Time) : bool := u <? t.

End time.

(** Go's [error] values, by their text. *)
Definition error : Type := string.

(** ** Package models *)

Module models.

(** [ExternalService]. The columns [CreatedAt] and [UpdatedAt], which only
    the ORM writes and nothing reads, are left out. *)
Record ExternalService : Type := mkExternalService {
  ID : N;
  Name : string;
  URL : string;
  HTTPMethod : string;
  Protocol : string;
  Interval : Z;
  TimeoutSeconds : Z;
  FailureThreshold : Z;
  Status : string;
  ConsecutiveFailures : Z;
  LastCheckedAt : option time.Time
}.

Definition set_ID (i : N) (s : ExternalService) : ExternalService :=
  mkExternalService i (Name s) (URL s) (HTTPMethod s) (Protocol s)
    (Interval s) (TimeoutSeconds s) (FailureThreshold s) (Status s)
    (ConsecutiveFailures s) (LastCheckedAt s).

Definition set_Status (st : string) (s : ExternalService) : ExternalService :=
  mkExternalService (ID s) (Name s) (URL s) (HTTPMethod s) (Protocol s)
    (Interval s) (TimeoutSeconds s) (FailureThreshold s) st
    (ConsecutiveFailures s) (LastCheckedAt s).

Definition set_ConsecutiveFailures (n : Z) (s : ExternalService)
  : ExternalService :=
  mkExternalService (ID s) (Name s) (URL s) (HTTPMethod s) (Protocol s)
    (Interval s) (TimeoutSeconds s) (FailureThreshold s) (Status s)
    n (LastCheckedAt s).

Definition set_LastCheckedAt (t : option time.Time) (s : ExternalService)
  : ExternalService :=
  mkExternalService (ID s) (Name s) (URL s) (HTTPMethod s) (Protocol s)
    (Interval s) (TimeoutSeconds s) (FailureThreshold s) (Status s)
    (ConsecutiveFailures s) t.

Record ServiceCheckLog : Type := mkServiceCheckLog {
  LogID : N;
  ExternalServiceID : N;
  LogStatus : string;
  StatusCode : Z;
  ResponseTimeMs : Z;
  ErrorMessage : string;
  CheckedAt : time.Time
}.

Record StateChange : Type := mkStateChange {
  From : string;
  To : string
}.

Record ServiceStateChangeEvent : Type := mkEvent {
  EvType : string;
  EvServiceID : N;
  EvName : string;
  EvFrom : string;
  EvTo : string;
  EvTimestamp : time.Time
}.

(** [ShouldMarkDown] *)
Definition ShouldMarkDown (s : ExternalService) : bool :=
  FailureThreshold s <=? ConsecutiveFailures s.

(** [RecordSuccess]; [now] is the value of [time.Now()]. *)
Definition RecordSuccess (now : time.Time) (s : ExternalService)
  : ExternalService :=
  set_LastCheckedAt (Some now)
    (set_ConsecutiveFailures 0 (set_Status "UP" s)).

(** [RecordFailure]: the counter is incremented (an [int64] increment),
    the check time is stored, and the status becomes DOWN when the
    threshold is reached; otherwise the status is left as it is. *)
Definition RecordFailure (now : time.Time) (s : ExternalService)
  : ExternalService :=
  let s1 := set_ConsecutiveFailures
              (Int64.add (ConsecutiveFailures s) 1) s in
  let s2 := set_LastCheckedAt (Some now) s1 in
  if ShouldMarkDown s2 then set_Status "DOWN" s2 else s2.

End models.

Import models.

(** ** The world the program runs in *)

(** [HealthCheckJob], the body of a queue message (package service). *)
Record HealthCheckJob : Type := mkJob {
  ServiceName : string;
  JobURL : string;
  JobTimeout : time.Duration;
  JobMethod : string
}.

(** What the program does to its collaborators, in the order it does it:
    the calls on the broker (publish, ack, nack), the two repository calls of
    the worker, and the hand-over of an event to the hub. *)
Inductive Effect : Type :=
| EPublish (job : HealthCheckJob)
| ENack
| EAck
| ELogAppend (entry : ServiceCheckLog)
| EUpdateState (id : N) (success : bool)
| EBroadcast (ev : ServiceStateChangeEvent).

(** The lines written with [log.Printf] and [log.Println]. *)
Inductive LogLine : Type :=
| LSchedulerFetchFailed (err : error)
| LSchedulerScheduleFailed (name : string) (err : error)
| LJobScheduled (job : HealthCheckJob)
| LJobScheduleError (job : HealthCheckJob) (err : error)
| LWorkerInvalidJob (err : error)
| LWorkerServiceNotFound (name : string)
| LWorkerInvalidRequest (name : string) (err : error)
| LWorkerLogSaveFailed (name : string) (err : error)
| LWorkerStateUpdateFailed (name : string) (err : error)
| LWorkerCheckCompleted (name status : string) (latency : Z) (err : string)
| LStateTransition (name from to : string).

(** Modelled from the spec: the declaration of [cache.MapExternalServices]
    (package cache) is not among the sources. It is the map from service id
    to service that [list_all] returns (section 4.1); [GetAllServices] and
    [Engine.RegisterService] use it as a [map[uint]*models.ExternalService]. *)
Definition MapExternalServices : Type := gmap N ExternalService.

Record World : Type := mkWorld {
  (** table [external_services], by primary key *)
  services : gmap N ExternalService;
  (** the last value given out by the sequence of that primary key
      ([autoIncrement]) *)
  services_seq : N;
  (** table [service_check_logs], oldest first *)
  check_logs : list ServiceCheckLog;
  (** the variable [cache.MapExternalServices] *)
  cache : MapExternalServices;
  (** what has been done to the broker, the repository and the hub *)
  trace : list Effect;
  (** what has been logged *)
  log_output : list LogLine
}.

Definition set_services (f : gmap N ExternalService → gmap N ExternalService)
    (w : World) : World :=
  mkWorld (f (services w)) (services_seq w) (check_logs w) (cache w) (trace w)
    (log_output w).
Definition set_services_seq (f : N → N) (w : World) : World :=
  mkWorld (services w) (f (services_seq w)) (check_logs w) (cache w) (trace w)
    (log_output w).
Definition set_check_logs (f : list ServiceCheckLog → list ServiceCheckLog)
    (w : World) : World :=
  mkWorld (services w) (services_seq w) (f (check_logs w)) (cache w) (trace w)
    (log_output w).
Definition set_cache (f : MapExternalServices → MapExternalServices)
    (w : World) : World :=
  mkWorld (services w) (services_seq w) (check_logs w) (f (cache w)) (trace w)
    (log_output w).
Definition set_trace (f : list Effect → list Effect) (w : World) : World :=
  mkWorld (services w) (services_seq w) (check_logs w) (cache w) (f (trace w))
    (log_output w).
Definition set_log_output (f : list LogLine → list LogLine) (w : World)
    : World :=
  mkWorld (services w) (services_seq w) (check_logs w) (cache w) (trace w)
    (f (log_output w)).

(** The state monad over [World]. *)
Definition M (A : Type) : Type := World → A * World.

#[global] Instance M_ret : MRet M := λ A (a : A) (w : World), (a, w).
#[global] Instance M_bind : MBind M :=
  λ A B (f : A → M B) (m : M A) (w : World), let '(a, w1) := m w in f a w1.

Definition modify (f : World → World) : M unit := λ w, (tt, f w).
Definition emit (e : Effect) : M unit :=
  modify (set_trace (λ t, (t ++ [e])%list)).
Definition log_Printf (l : LogLine) : M unit :=
  modify (set_log_output (λ t, (t ++ [l])%list)).

(** The world after a computation, and what it returned. *)
Definition exec {A} (m : M A) (w : World) : World := snd (m w).
Definition eval {A} (m : M A) (w : World) : A := fst (m w).

(** ** Ranging over a map *)

(** [for k, v := range m]: the order in which a Go map is ranged over is not
    specified and changes from one loop to the next. [choice] is what the
    runtime picks: at each step, the position, modulo the number of entries
    left, of the entry that is visited next. *)
Fixpoint range_order {A} (n : nat) (choice : list nat) (l : list A) : list A :=
  match n with
  | O => []
  | S n1 =>
      let i := (hd 0%nat choice `mod` length l)%nat in
      match l !! i with
      | Some x => x :: range_order n1 (tl choice) (delete i l)
      | None => []
      end
  end.

Definition range_map {A} (choice : list nat) (m : gmap N A) : list (N * A) :=
  range_order (length (map_to_list m)) choice (map_to_list m).

(** ** Package Repository *)

Module Repository.

(** The column defaults of [external_services], the [default:] tags of
    [models.ExternalService]. On an insert the ORM writes the default in
    place of the zero value of such a field, into the row and into the
    struct. *)
Definition with_defaults (s : ExternalService) : ExternalService :=
  mkExternalService (ID s) (Name s) (URL s)
    (if (HTTPMethod s =? "")%string then "GET" else HTTPMethod s)
    (if (Protocol s =? "")%string then "HTTP" else Protocol s)
    (if Interval s =? 0 then 60 else Interval s)
    (if TimeoutSeconds s =? 0 then 10 else TimeoutSeconds s)
    (if FailureThreshold s =? 0 then 3 else FailureThreshold s)
    (if (Status s =? "")%string then "up" else Status s)
    (ConsecutiveFailures s)
    (LastCheckedAt s).

(** The error of an insert whose key is in use. *)
Definition duplicate_key : error :=
  "duplicate key value violates unique constraint".

(** [db.Save(service)] of the ORM.
    - With a zero key it is an insert: the key is the next value of the
      sequence, the defaults are filled in, and key and defaults are written
      back to the struct. The sequence does not look at the table: when its
      next value is the key of a row (one stored with a key of its own), the
      insert fails on the primary key, and the value is used up.
    - With a non-zero key it is an update of every column of the row with
      that key, as the struct has them; when there is no such row, the ORM
      follows up with an insert under that key, defaults filled in.
    [dberr] is any other failure of the statement; then nothing is written
    and the struct is left as it was passed. *)
Definition Save (dberr : option error) (service : ExternalService)
    : M (ExternalService * option error) :=
  match dberr with
  | Some e => mret (service, Some e)
  | None =>
      λ w,
        if (ID service =? 0)%N then
          let id := N.succ (services_seq w) in
          let w1 := set_services_seq (λ _, id) w in
          match services w !! id with
          | Some _ => ((service, Some duplicate_key), w1)
          | None =>
              let s := set_ID id (with_defaults service) in
              ((s, None), set_services (λ db, <[id := s]> db) w1)
          end
        else
          match services w !! ID service with
          | Some _ =>
              ((service, None),
               set_services (λ db, <[ID service := service]> db) w)
          | None =>
              let s := with_defaults service in
              ((s, None), set_services (λ db, <[ID s := s]> db) w)
          end
  end.

(** [RegisterService]. [service] is the pointer argument ([None] for nil);
    the first component of the result is the struct behind the pointer
    afterwards. *)
Definition RegisterService (dberr : option error)
    (service : option ExternalService)
    : M (option ExternalService * option error) :=
  match service with
  | None => mret (None, Some "service is nil")
  | Some s =>
      if (Name s =? "")%string then
        mret (service, Some "service name is empty")
      else if (URL s =? "")%string then
        mret (service, Some "service url is empty")
      else if (HTTPMethod s =? "")%string then
        mret (service, Some "service http method is empty")
      else if (TimeoutSeconds s =? 0) || (TimeoutSeconds s <? 0) then
        mret (service, Some "service timeout is invalid")
      else if negb (HTTPMethod s =? "GET")%string
              && negb (HTTPMethod s =? "POST")%string
              && negb (HTTPMethod s =? "PUT")%string
              && negb (HTTPMethod s =? "DELETE")%string
              && negb (HTTPMethod s =? "PATCH")%string then
        mret (service, Some "service http method is invalid")
      else if (FailureThreshold s =? 0) || (FailureThreshold s <? 0) then
        mret (service, Some "service failure threshold is invalid")
      else if (Interval s =? 0) || (Interval s <? 0) then
        mret (service, Some "service interval is invalid")
      else
        '(s1, err) ← Save dberr s;
        mret (Some s1, err)
  end.

(** [GetAllServices]: the rows found are put into the cache under their
    [ID], and the cache itself is returned. With no row the result is
    [(nil, "no services found")]. *)
Definition GetAllServices (dberr : option error)
    : M (option MapExternalServices * option error) :=
  match dberr with
  | Some e => mret (None, Some e)
  | None =>
      λ w,
        let found := (map_to_list (services w)).*2 in
        if (length found =? 0)%nat then
          ((None, Some "no services found"), w)
        else
          let c := foldl (λ c s, <[ID s := s]> c) (cache w) found in
          ((Some c, None), set_cache (λ _, c) w)
  end.

(** The row with the least primary key among those that satisfy [P]
    (the ORM's [First]). *)
Definition first_row (P : ExternalService → bool)
    (db : gmap N ExternalService) : option ExternalService :=
  snd <$>
  foldr (λ (kv : N * ExternalService) acc,
           if P kv.2 then
             match acc with
             | Some (k0, v0) =>
                 if (kv.1 <? k0)%N then Some kv else Some (k0, v0)
             | None => Some kv
             end
           else acc)
        None (map_to_list db).

(** [GetServiceByName]. The ORM drops a condition on a zero-valued field,
    so an empty name selects the first row of the table. *)
Definition GetServiceByName (dberr : option error) (name : string)
    : M (option ExternalService * option error) :=
  match dberr with
  | Some e => mret (None, Some e)
  | None =>
      λ w,
        match first_row
                (λ s, (name =? "")%string || (Name s =? name)%string)
                (services w) with
        | Some s => ((Some s, None), w)
        | None => ((None, Some "record not found"), w)
        end
  end.

(** [SaveServiceCheckLog]; [now] is the value of [time.Now()]. *)
Definition SaveServiceCheckLog (dberr : option error) (now : time.Time)
    (service : ExternalService) (status : string) (statusCode : Z)
    (responseTimeMs : Z) (errMsg : string) : M (option error) :=
  let logEntry :=
    mkServiceCheckLog 0%N (ID service) status statusCode responseTimeMs
      errMsg now in
  emit (ELogAppend logEntry);;
  match dberr with
  | Some e => mret (Some e)
  | None =>
      λ w,
        let row :=
          mkServiceCheckLog (N.of_nat (S (length (check_logs w))))
            (ID service) status statusCode responseTimeMs errMsg now in
        (None, set_check_logs (λ l, (l ++ [row])%list) w)
  end.

(** The branch on [success] in [UpdateServiceState]: the state machine. *)
Definition apply_outcome (now : time.Time) (service : ExternalService)
    (success : bool) : ExternalService :=
  if success then RecordSuccess now service
  else RecordFailure now service.

(** [UpdateServiceState]. The first component is the struct behind
    [service] afterwards: it is changed even when [Save] fails. *)
Definition UpdateServiceState (dberr : option error) (now : time.Time)
    (service : ExternalService) (success : bool)
    : M (ExternalService * (option StateChange * option error)) :=
  emit (EUpdateState (ID service) success);;
  let previousStatus := Status service in
  let service1 := apply_outcome now service success in
  '(service2, err) ← Save dberr service1;
  match err with
  | Some e => mret (service2, (None, Some e))
  | None =>
      if negb (previousStatus =? Status service2)%string then
        mret (service2,
              (Some (mkStateChange previousStatus (Status service2)), None))
      else
        mret (service2, (None, None))
  end.

End Repository.

(** ** Package service *)

Module Service.

(** [for _, x := range l { body x }] *)
Definition for_each {A} (l : list A) (body : A → M unit) : M unit :=
  foldr (λ a k, body a;; k) (mret tt) l.

(** *** The HTTP handler of registration *)

Inductive ResponseBody : Type :=
| JError (msg : string)
| JRecovered (r : string)
| JRegistered (msg : string) (svc : ExternalService).

(** The body of a registration request, as far as the binding tells them
    apart: a body that is not the JSON of a service (a syntax error, a field
    of the wrong type, no body at all), the JSON value [null], and the JSON
    object of a service. *)
Inductive Body : Type :=
| BodyInvalid (err : error)
| BodyNull
| BodyService (s : ExternalService).

(** What a call of [c.ShouldBindJSON(&service)] does: it returns, leaving
    [service] and an error, or it panics with a value. *)
Inductive BindResult : Type :=
| BindPanic (r : string)
| BindReturn (service : option ExternalService) (err : option error).

(** [c.ShouldBindJSON(&service)] of the web framework, for a [service] of
    type [*models.ExternalService]. Decoding [null] leaves the pointer nil
    and reports no error; the validation that follows the decoding then
    dereferences the nil pointer by reflection and panics. *)
Definition ShouldBindJSON (body : Body) : BindResult :=
  match body with
  | BodyInvalid e => BindReturn None (Some e)
  | BodyNull =>
      BindPanic "reflect: call of reflect.Value.Interface on zero Value"
  | BodyService s => BindReturn (Some s) None
  end.

(** [Engine.RegisterService]: the result is the status and the body given
    to [c.JSON]. A panic of the binding is caught by the deferred function,
    which answers 500 with the recovered value. *)
Definition RegisterService (body : Body) (dberr : option error)
    : M (Z * ResponseBody) :=
  match ShouldBindJSON body with
  | BindPanic r => mret (500, JRecovered r)
  | BindReturn service err =>
      match err with
      | Some e => mret (400, JError e)
      | None =>
          match service with
          | None => mret (400, JError "service is nil")
          | Some _ =>
              '(service1, err) ← Repository.RegisterService dberr service;
              match err, service1 with
              | Some e, _ => mret (500, JError e)
              | None, Some s =>
                  modify (set_cache (λ c, <[ID s := s]> c));;
                  mret (201, JRegistered "service registered successfully" s)
              | None, None =>
                  (* a nil pointer here is excluded by the check above *)
                  mret (500, JError "service is nil")
              end
          end
      end
  end.

(** *** Scheduler *)

(** [shouldRun]. The interval is turned into a [time.Duration] by an
    [int64] multiplication with [time.Second]. *)
Definition shouldRun (s : ExternalService) (now : time.Time) : bool :=
  match LastCheckedAt s with
  | None => true
  | Some last =>
      let next := time.Add last (Int64.mul (Interval s) time.Second) in
      time.After now next
  end.

(** [Scheduler.Schedule]. Encoding a job as JSON cannot fail (strings and
    an integer), so the message body is the job; [publish_err] is the
    failure of [amqpChannel.Publish], if any. *)
Definition Schedule (publish_err : option error) (job : HealthCheckJob)
    : M (option error) :=
  emit (EPublish job);;
  match publish_err with
  | Some e =>
      log_Printf (LJobScheduleError job e);;
      mret (Some ("failed to publish job: " +:+ e))
  | None =>
      log_Printf (LJobScheduled job);;
      mret None
  end.

Definition job_of (s : ExternalService) : HealthCheckJob :=
  mkJob (Name s) (URL s) (Int64.mul (TimeoutSeconds s) time.Second)
    (HTTPMethod s).

(** What one tick of the scheduler meets: the failure of the query, the
    clock, the failure of each publish, and the order in which the map of
    services is ranged over. *)
Record TickEnv : Type := mkTickEnv {
  fetch_dberr : option error;
  tick_now : time.Time;
  publish_err : HealthCheckJob → option error;
  range_choice : list nat
}.

(** The [case <-ticker.C] branch of [Engine.Scheduler]. *)
Definition scheduler_tick (env : TickEnv) : M unit :=
  '(svcs, err) ← Repository.GetAllServices (fetch_dberr env);
  match err with
  | Some e => log_Printf (LSchedulerFetchFailed e)
  | None =>
      let now := tick_now env in
      (* ranging over a nil map does nothing *)
      for_each (range_map (range_choice env) (default ∅ svcs)).*2 (λ s,
        if negb (shouldRun s now) then mret tt
        else
          let job := job_of s in
          err ← Schedule (publish_err env job) job;
          match err with
          | Some e => log_Printf (LSchedulerScheduleFailed (Name s) e)
          | None => mret tt
          end)
  end.

(** What the [select] of the scheduler loop receives. *)
Inductive SchedulerInput : Type :=
| CtxDone
| Tick (env : TickEnv).

(** The loop of [Engine.Scheduler] over the inputs it receives; the
    result tells whether the loop returned. *)
Fixpoint Scheduler (inputs : list SchedulerInput) : M bool :=
  match inputs with
  | [] => mret false
  | CtxDone :: _ => mret true
  | Tick env :: rest => scheduler_tick env;; Scheduler rest
  end.

(** *** Worker *)

(** The answer of [client.Do(req)]. *)
Inductive DoResult : Type :=
| DoResponse (statusCode : Z)
| DoError (err : error).

(** What the processing of one delivery meets. *)
Record WorkerEnv : Type := mkWorkerEnv {
  (** [json.Unmarshal(msg.Body, &job)] *)
  unmarshal : HealthCheckJob * option error;
  lookup_dberr : option error;
  (** [http.NewRequest(job.Method, job.URL, nil)] *)
  new_request_err : option error;
  do_result : DoResult;
  latencyMs : Z;
  log_dberr : option error;
  log_now : time.Time;
  update_dberr : option error;
  update_now : time.Time;
  event_now : time.Time
}.

(** The classification of the probe in [StartWorker]:
    [(status, statusCode, errorMsg, success)]. *)
Definition probe_outcome (r : DoResult) : string * Z * string * bool :=
  let status := "DOWN" in
  let statusCode := 0 in
  let errorMsg := "" in
  let success := false in
  match r with
  | DoError e => (status, statusCode, e, success)
  | DoResponse code =>
      if code <? 400 then ("UP", code, errorMsg, true)
      else (status, code, errorMsg, success)
  end.

Definition LogStateTransition (serviceName : string) (change : StateChange)
    : M unit :=
  log_Printf (LStateTransition serviceName (From change) (To change)).

(** [BroadcastStateChange]: the event goes to the hub's broadcast channel.
    Its JSON encoding cannot fail for a timestamp of the clock, and is
    identified with the event. *)
Definition BroadcastStateChange (now : time.Time) (svc : ExternalService)
    (change : StateChange) : M unit :=
  let event :=
    mkEvent "service_state_change" (ID svc) (Name svc)
      (From change) (To change) now in
  emit (EBroadcast event).

(** The body of the loop of [StartWorker] for one delivery. *)
Definition handle_delivery (env : WorkerEnv) : M unit :=
  let '(job, err) := unmarshal env in
  match err with
  | Some e => log_Printf (LWorkerInvalidJob e);; emit ENack
  | None =>
  '(found, err) ← Repository.GetServiceByName (lookup_dberr env)
                    (ServiceName job);
  match err, found with
  | Some _, _ =>
      log_Printf (LWorkerServiceNotFound (ServiceName job));; emit ENack
  | None, None =>
      (* [GetServiceByName] never returns (nil, nil) *)
      mret tt
  | None, Some svc =>
  match new_request_err env with
  | Some e => log_Printf (LWorkerInvalidRequest (Name svc) e);; emit ENack
  | None =>
  let '(status, statusCode, errorMsg, success) :=
    probe_outcome (do_result env) in
  err ← Repository.SaveServiceCheckLog (log_dberr env) (log_now env) svc
          status statusCode (latencyMs env) errorMsg;
  match err with
  | Some e => log_Printf (LWorkerLogSaveFailed (Name svc) e)
  | None => mret tt
  end;;
  '(svc1, (stateChange, err)) ←
    Repository.UpdateServiceState (update_dberr env) (update_now env) svc
      success;
  match err with
  | Some e => log_Printf (LWorkerStateUpdateFailed (Name svc1) e)
  | None => mret tt
  end;;
  match stateChange with
  | Some change =>
      LogStateTransition (Name svc1) change;;
      BroadcastStateChange (event_now env) svc1 change
  | None => mret tt
  end;;
  log_Printf
    (LWorkerCheckCompleted (Name svc1) status (latencyMs env) errorMsg);;
  emit EAck
  end end end.

(** [for msg := range msgs] *)
Definition StartWorker (msgs : list WorkerEnv) : M unit :=
  for_each msgs handle_delivery.

End Service.

(** *** Broadcast hub *)

Module Hub.

(** A frame handed to the hub: the encoded event. *)
Definition Payload : Type := ServiceStateChangeEvent.

(** A buffered Go channel of frames: what is queued (oldest first), the
    capacity it was made with, and whether it has been closed. *)
Record Chan : Type := mkChan {
  buf : list Payload;
  cap : nat;
  closed : bool
}.

(** [make(chan []byte, n)] *)
Definition make_chan (n : nat) : Chan := mkChan [] n false.

(** The send of [select { case ch <- msg: ... default: ... }]: [None] is
    the panic of a send on a closed channel; otherwise the channel
    afterwards and whether the send case was taken. *)
Definition enqueue (ch : Chan) (msg : Payload) : Chan :=
  mkChan (buf ch ++ [msg])%list (cap ch) (closed ch).
Definition try_send (ch : Chan) (msg : Payload) : option (Chan * bool) :=
  if closed ch then None
  else if (length (buf ch) <? cap ch)%nat
       then Some (enqueue ch msg, true)
       else Some (ch, false).

(** [close(ch)]; closing twice panics. What is queued stays readable. *)
Definition mark_closed (ch : Chan) : Chan := mkChan (buf ch) (cap ch) true.
Definition close (ch : Chan) : option Chan :=
  if closed ch then None else Some (mark_closed ch).

(** A receive of the writer goroutine ([for message := range client.Send]):
    the oldest frame, if one is queued. *)
Definition recv (ch : Chan) : option (Payload * Chan) :=
  match buf ch with
  | [] => None
  | m :: rest => Some (m, mkChan rest (cap ch) (closed ch))
  end.

(** The hub and the clients it can refer to. A client is identified by its
    address; [send] gives the state of the [Send] channel of the client at
    an address, [clients] is the key set of [h.clients]. *)
Record State : Type := mkState {
  clients : gset positive;
  send : gmap positive Chan
}.

(** What the [select] of [Hub.Run] receives. *)
Inductive Input : Type :=
| Register (client : positive)
| Unregister (client : positive)
| Broadcast (msg : Payload).

(** One iteration of the range loop of the broadcast case, for client [c].
    [None] is a panic. *)
Definition deliver (msg : Payload) (h : State) (c : positive)
    : option State :=
  ch ← send h !! c;
  '(ch1, sent) ← try_send ch msg;
  if (sent : bool) then
    Some (mkState (clients h) (<[c := ch1]> (send h)))
  else
    ch2 ← close ch;
    Some (mkState (clients h ∖ {[c]}) (<[c := ch2]> (send h))).

(** [for c := range h.clients { ... }]: every key present when the loop
    starts is visited once; the loop deletes only the key it is at. *)
Definition broadcast (msg : Payload) (h : State) : option State :=
  foldl (λ acc c, h1 ← acc; deliver msg h1 c) (Some h)
    (elements (clients h)).

(** One iteration of the loop of [Hub.Run]. *)
Definition step (h : State) (i : Input) : option State :=
  match i with
  | Register c => Some (mkState ({[c]} ∪ clients h) (send h))
  | Unregister c =>
      if decide (c ∈ clients h) then
        ch ← send h !! c;
        ch1 ← close ch;
        Some (mkState (clients h ∖ {[c]}) (<[c := ch1]> (send h)))
      else Some h
  | Broadcast msg => broadcast msg h
  end.

(** [Hub.Run] over the inputs it receives. *)
Definition Run (h : State) (inputs : list Input) : option State :=
  foldl (λ acc i, h1 ← acc; step h1 i) (Some h) inputs.

(** [NewHub] *)
Definition NewHub : State := mkState ∅ ∅.

(** The part of [HandleWebSocket] that the hub sees: a client at a new
    address [c] with a [Send] channel of 256 frames, then its registration. *)
Definition HandleWebSocket (c : positive) (h : State) : option State :=
  step (mkState (clients h) (<[c := make_chan 256]> (send h))) (Register c).

(** What happens around the hub: a connection ([HandleWebSocket]), the end
    of the reader goroutine of a client (which unregisters it), a broadcast
    of the worker, and a receive of the writer goroutine of a client. *)
Inductive Event : Type :=
| Connect (client : positive)
| Disconnect (client : positive)
| Publish (msg : Payload)
| Drain (client : positive).

Definition drain (c : positive) (h : State) : State :=
  match send h !! c with
  | Some ch =>
      match recv ch with
      | Some (_, ch1) => mkState (clients h) (<[c := ch1]> (send h))
      | None => h
      end
  | None => h
  end.

Definition handle (h : State) (e : Event) : option State :=
  match e with
  | Connect c => HandleWebSocket c h
  | Disconnect c => step h (Unregister c)
  | Publish msg => step h (Broadcast msg)
  | Drain c => Some (drain c h)
  end.

Definition run_events (h : State) (es : list Event) : option State :=
  foldl (λ acc e, h1 ← acc; handle h1 e) (Some h) es.

(** Every registered client has an open channel: the hub closes a channel
    only when it removes the client. *)
Definition wf (h : State) : Prop :=
  ∀ c, c ∈ clients h → ∃ ch, send h !! c = Some ch ∧ closed ch = false.

End Hub.

(** ** The statements of the specification *)

Module Spec.

(** The invariants of a service record in the data model of the
    specification (section 3), on the types of the code. *)
Definition data_model_invariants (s : ExternalService) : Prop :=
  (Status s = "UP" ∨ Status s = "DOWN")
  ∧ 0 < TimeoutSeconds s ∧ 0 < Interval s
  ∧ 1 <= FailureThreshold s <= Int64.max_int
  ∧ 0 <= ConsecutiveFailures s <= Int64.max_int
  ∧ (FailureThreshold s <= ConsecutiveFailures s ↔ Status s = "DOWN")
  ∧ (Status s = "UP" → ConsecutiveFailures s = 0).

(** Invariant I1 of the specification, as it is written there. *)
Definition status_counter_I1 (s : ExternalService) : Prop :=
  (Status s = "DOWN" ↔ FailureThreshold s <= ConsecutiveFailures s)
  ∧ (Status s = "UP" → ConsecutiveFailures s = 0).

(** The row "UP, n, false" of the transition table of the specification
    (section 4.4): the counter and the status after a failure from UP. *)
Definition table_failure_counter (n T : Z) : Z :=
  if n + 1 <? T then n + 1 else T.
Definition table_failure_status (n T : Z) : string :=
  if n + 1 <? T then "UP" else "DOWN".

(** The due-time rule of the specification (section 4.5, I5), with the
    interval in seconds and instants in nanoseconds. *)
Definition due (s : ExternalService) (now : time.Time) : Prop :=
  LastCheckedAt s = None
  ∨ ∃ last, LastCheckedAt s = Some last
            ∧ last + Interval s * 1000000000 < now.

(** A registration that passes the validation of the specification
    (section 4.1): non-empty name and url, a known method, positive
    timeout, interval and failure threshold. *)
Definition valid_registration (s : ExternalService) : bool :=
  negb (Name s =? "")%string && negb (URL s =? "")%string
  && bool_decide (HTTPMethod s ∈ ["GET"; "POST"; "PUT"; "DELETE"; "PATCH"])
  && (0 <? TimeoutSeconds s) && (0 <? Interval s)
  && (0 <? FailureThreshold s).

End Spec.

(** What the code keeps true of a stored record: the status is DOWN exactly
    from the threshold on. *)
Definition threshold_invariant (s : ExternalService) : Prop :=
  (Status s = "UP" ∨ Status s = "DOWN")
  ∧ (Status s = "DOWN" ↔ FailureThreshold s <= ConsecutiveFailures s).

(** The state machine run over a list of outcomes, each with the instant at
    which it is applied. *)
Definition apply_outcomes (s : ExternalService)
    (outcomes : list (time.Time * bool)) : ExternalService :=
  foldl (λ acc o, Repository.apply_outcome o.1 acc o.2) s outcomes.

(** The effects a computation adds to the trace of [w]. *)
Definition effects_of {A} (m : M A) (w : World) : list Effect :=
  drop (length (trace w)) (trace (exec m w)).

(** The status stored for the key [id]. *)
Definition stored_status (w : World) (id : N) : option string :=
  Status <$> services w !! id.

(** A delivery that is not processed to completion is nacked and changes
    no table. *)
Definition rejected (env : Service.WorkerEnv) (w : World) : Prop :=
  trace (exec (Service.handle_delivery env) w) = (trace w ++ [ENack])%list
  ∧ services (exec (Service.handle_delivery env) w) = services w
  ∧ check_logs (exec (Service.handle_delivery env) w) = check_logs w.

Definition is_log_append (e : Effect) : bool :=
  match e with ELogAppend _ => true | _ => false end.
Definition is_ack (e : Effect) : bool :=
  match e with EAck => true | _ => false end.

(** ** Concrete records used in the examples *)

Module Examples.

(** Scenario 1 of the specification: service A, threshold 3, initially UP. *)
Definition svcA : ExternalService :=
  mkExternalService 1%N "A" "http://x/health" "GET" "HTTP" 30 5 3 "UP" 0
    None.

Definition empty_world : World := mkWorld ∅ 0%N [] ∅ [] [].

Definition worldA : World := mkWorld {[ 1%N := svcA ]} 1%N [] ∅ [] [].

(** Service A after two failures, still UP, and after the third, DOWN. *)
Definition svcA2 : ExternalService :=
  mkExternalService 1%N "A" "http://x/health" "GET" "HTTP" 30 5 3 "UP" 2
    (Some 5).
Definition svcA_down : ExternalService :=
  mkExternalService 1%N "A" "http://x/health" "GET" "HTTP" 30 5 3 "DOWN" 3
    (Some 6).
Definition worldA2 : World := mkWorld {[ 1%N := svcA2 ]} 1%N [] ∅ [] [].
Definition worldA_down : World :=
  mkWorld {[ 1%N := svcA_down ]} 1%N [] ∅ [] [].

(** A service with a threshold of 1, UP. *)
Definition svcT1 : ExternalService :=
  mkExternalService 2%N "B" "http://y/health" "GET" "HTTP" 30 5 1 "UP" 0
    None.

(** A service registered with an interval of 10^10 seconds, last checked
    at instant 0. *)
Definition svcLong : ExternalService :=
  mkExternalService 3%N "L" "http://z/health" "GET" "HTTP" 10000000000 5 3
    "UP" 0 (Some 0).

Definition worldLong : World := mkWorld {[ 3%N := svcLong ]} 3%N [] ∅ [] [].

(** A tick five seconds after instant 0 at which every statement and
    every publish succeeds. *)
Definition tick5 : Service.TickEnv :=
  Service.mkTickEnv None 5000000000 (λ _, None) [].


(** A registration that passes validation. *)
Definition svcNew : ExternalService :=
  mkExternalService 0%N "A" "http://x/health" "GET" "HTTP" 30 5 3 "" 0 None.


(** Scenario 3 of the specification: A has interval 10, B has interval 60,
    both were checked at instant 0; the tick comes 20 seconds later. *)
Definition svcA10 : ExternalService :=
  mkExternalService 1%N "A" "http://a/health" "GET" "HTTP" 10 5 3 "UP" 0
    (Some 0).
Definition svcB60 : ExternalService :=
  mkExternalService 2%N "B" "http://b/health" "GET" "HTTP" 60 5 3 "UP" 0
    (Some 0).
Definition worldAB : World :=
  mkWorld {[ 1%N := svcA10; 2%N := svcB60 ]} 2%N [] ∅ [] [].
Definition tick20 : Service.TickEnv :=
  Service.mkTickEnv None 20000000000 (λ _, None) [].

(** Events to broadcast. *)
Definition ev (n : Z) : ServiceStateChangeEvent :=
  mkEvent "service_state_change" 1%N "A" "UP" "DOWN" n.

(** A hub with two subscribers of capacity 2: the buffer of subscriber 1
    is empty, the buffer of subscriber 2 is full. *)
Definition hub2 : Hub.State :=
  Hub.mkState {[ 1%positive; 2%positive ]}
    {[ 1%positive := Hub.mkChan [] 2 false;
       2%positive := Hub.mkChan [ev 1; ev 2] 2 false ]}.

(** A delivery for service A whose probe meets a transport error. *)
Definition envA_fail : Service.WorkerEnv :=
  Service.mkWorkerEnv (Service.job_of svcA, None) None None
    (Service.DoError "connection refused") 12 None 7 None 8 9.

End Examples.

(** ** The rest of package Repository: pages of the probe log *)

Module CheckLogs.

(** [ORDER BY checked_at DESC]: the later entry comes first. *)
Definition newer_first (a b : ServiceCheckLog) : Prop :=
  CheckedAt b <= CheckedAt a.

#[global] Instance newer_first_dec : RelDecision newer_first.
Proof. intros a b. unfold newer_first. apply _. Defined.

(** The rows that [Where("external_service_id = ?", serviceID)] selects. *)
Definition of_service (serviceID : N) (logs : list ServiceCheckLog)
    : list ServiceCheckLog :=
  filter (λ l, ExternalServiceID l = serviceID) logs.

(** [Limit(limit).Offset(offset)] of the ORM on the ordered rows: a LIMIT
    clause is written for a limit that is not negative, an OFFSET clause
    for an offset that is positive. *)
Definition page (limit offset : Z) (rows : list ServiceCheckLog)
    : list ServiceCheckLog :=
  let skipped := if 0 <? offset then drop (Z.to_nat offset) rows else rows in
  if 0 <=? limit then take (Z.to_nat limit) skipped else skipped.

(** [GetServiceCheckLogs] *)
Definition GetServiceCheckLogs (dberr : option error) (serviceID : N)
    (limit offset : Z)
    : M (option (list ServiceCheckLog) * option error) :=
  let limit := if limit =? 0 then 100 else limit in
  match dberr with
  | Some e => mret (None, Some e)
  | None =>
      λ w,
        let rows := merge_sort newer_first (of_service serviceID (check_logs w)) in
        ((Some (page limit offset rows), None), w)
  end.

Inductive LogsBody : Type :=
| LogsError (msg : string)
| LogsPage (logs : list ServiceCheckLog).

(** [Engine.GetHealthCheckLogs]. [ParseUint] is
    [strconv.ParseUint(_, 10, 32)] and [Atoi] is [strconv.Atoi], each with
    [None] for an error; [serviceID] is the path parameter, [limit] and
    [offset] are the query parameters (empty when absent). *)
Definition GetHealthCheckLogs (ParseUint : string → option N)
    (Atoi : string → option Z) (serviceID limit offset : string)
    (dberr : option error) : M (Z * LogsBody) :=
  match ParseUint serviceID with
  | None => mret (400, LogsError "invalid service id")
  | Some id =>
      let limitInt := 100 in
      let offsetInt := 0 in
      let limitInt :=
        if negb (limit =? "")%string then
          match Atoi limit with
          | Some l => if 0 <? l then l else limitInt
          | None => limitInt
          end
        else limitInt in
      let offsetInt :=
        if negb (offset =? "")%string then
          match Atoi offset with
          | Some o => if 0 <=? o then o else offsetInt
          | None => offsetInt
          end
        else offsetInt in
      '(logs, err) ← GetServiceCheckLogs dberr id limitInt offsetInt;
      match err with
      | Some e => mret (500, LogsError e)
      | None => mret (200, LogsPage (default [] logs))
      end
  end.

End CheckLogs.

(** ** The rest of the admin surface *)

Module Admin.

(** [config.AuthConfig] *)
Record AuthConfig : Type := mkAuthConfig {
  AuthUsername : string;
  AuthPassword : string
}.

Inductive ListBody : Type :=
| ListError (msg : string)
| ListOK (svcs : MapExternalServices).

(** [Engine.ListServices] *)
Definition ListServices (dberr : option error) : M (Z * ListBody) :=
  '(svcs, err) ← Repository.GetAllServices dberr;
  match err with
  | Some e => mret (500, ListError e)
  | None => mret (200, ListOK (default ∅ svcs))
  end.

(** [BasicAuthMiddleware]: [auth] is what [c.Request.BasicAuth()] returns;
    the result is [true] when the request goes on to the handler
    ([c.Next()]) and [false] when it is aborted with the status 401. *)
Definition BasicAuthMiddleware (cfg : AuthConfig)
    (auth : string * string * bool) : bool :=
  let '(user, pass, ok) := auth in
  if negb ok || negb (user =? AuthUsername cfg)%string
     || negb (pass =? AuthPassword cfg)%string
  then false else true.

(** The route [POST /health-app/externalServices/register] of
    [SetupRoutes]: the middleware of the group, then the handler. *)
Definition register_route (cfg : AuthConfig) (auth : string * string * bool)
    (body : Service.Body) (dberr : option error)
    : M (Z * Service.ResponseBody) :=
  if BasicAuthMiddleware cfg auth then Service.RegisterService body dberr
  else mret (401, Service.JError "unauthorized").

(** The route [GET /health-app/externalServices/list]. *)
Definition list_route (cfg : AuthConfig) (auth : string * string * bool)
    (dberr : option error) : M (Z * ListBody) :=
  if BasicAuthMiddleware cfg auth then ListServices dberr
  else mret (401, ListError "unauthorized").

End Admin.

(** ** The address of the broker *)

Module Amqp.

(** [config.RabbitMQ] *)
Record RabbitMQ : Type := mkRabbitMQ {
  Host : string;
  Port : Z;
  Username : string;
  Password : string;
  VHost : string;
  QueueName : string;
  Exchange : string;
  RoutingKey : string
}.

(** [fmt.Sprintf("amqp://%s:%s@%s:%d%s", ...)] *)
Definition amqp_url (user pass host : string) (port : Z) (vhost : string)
    : string :=
  "amqp://" +:+ user +:+ ":" +:+ pass +:+ "@" +:+ host +:+ ":"
  +:+ pretty port +:+ vhost.

(** [Engine.AMQPURL], the address the worker dials. *)
Definition AMQPURL (r : RabbitMQ) : string :=
  let vhost := VHost r in
  let vhost := if (vhost =? "")%string then "/" else vhost in
  amqp_url (Username r) (Password r) (Host r) (Port r) vhost.

(** The address [NewScheduler] dials. *)
Definition NewScheduler_url (rbtCnfg : RabbitMQ) : string :=
  amqp_url (Username rbtCnfg) (Password rbtCnfg) (Host rbtCnfg)
    (Port rbtCnfg) (VHost rbtCnfg).

End Amqp.

(** ** Observations on the worker and the hub *)

Definition is_nack (e : Effect) : bool :=
  match e with ENack => true | _ => false end.

(** A delivery is processed to completion in [w]: its payload decodes, its
    service resolves and the request builds. *)
Definition completes (env : Service.WorkerEnv) (w : World) : Prop :=
  ∃ svc,
    (Service.unmarshal env).2 = None
    ∧ eval (Repository.GetServiceByName (Service.lookup_dberr env)
              (ServiceName (Service.unmarshal env).1)) w = (Some svc, None)
    ∧ Service.new_request_err env = None.

(** The state machine run over [k] failures in a row. *)
Definition fail_times (now : time.Time) (k : nat) (s : ExternalService)
    : ExternalService :=
  Nat.iter k (RecordFailure now) s.

(** What the publish of the job of [s] leaves in the log of a tick: on a
    failure the line of [Schedule] and the line of the loop of the
    scheduler, on a success the line of [Schedule]. *)
Definition schedule_log (publish_err : HealthCheckJob → option error)
    (s : ExternalService) : list LogLine :=
  match publish_err (Service.job_of s) with
  | Some e =>
      [LJobScheduleError (Service.job_of s) e;
       LSchedulerScheduleFailed (Name s) ("failed to publish job: " +:+ e)]
  | None => [LJobScheduled (Service.job_of s)]
  end.

(** The table is keyed by the [ID] of its rows. *)
Definition keyed (db : gmap N ExternalService) : Prop :=
  ∀ k s, db !! k = Some s → ID s = k.

(** The frames broadcast in a sequence of events. *)
Definition published (es : list Hub.Event) : list Hub.Payload :=
  omap (λ e, match e with Hub.Publish m => Some m | _ => None end) es.

(** The frames the writer of client [c] receives at an event of state [h]. *)
Definition received_at (c : positive) (h : Hub.State) (e : Hub.Event)
    : list Hub.Payload :=
  match e with
  | Hub.Drain c1 =>
      if decide (c1 = c) then
        match Hub.send h !! c with
        | Some ch => match Hub.recv ch with Some (m, _) => [m] | None => [] end
        | None => []
        end
      else []
  | _ => []
  end.

(** The hub over a sequence of events, with the frames the writer of
    client [c] receives on the way. *)
Fixpoint run_received (c : positive) (h : Hub.State) (es : list Hub.Event)
    : option (Hub.State * list Hub.Payload) :=
  match es with
  | [] => Some (h, [])
  | e :: rest =>
      h1 ← Hub.handle h e;
      '(h2, r) ← run_received c h1 rest;
      Some (h2, (received_at c h e ++ r)%list)
  end.

(** An event that neither connects nor disconnects client [c]. *)
Definition leaves (c : positive) (e : Hub.Event) : Prop :=
  match e with
  | Hub.Connect c1 | Hub.Disconnect c1 => c1 ≠ c
  | _ => True
  end.

(** Every channel was made by [HandleWebSocket] and holds no more frames
    than its capacity. *)
Definition bounded (h : Hub.State) : Prop :=
  ∀ c ch, Hub.send h !! c = Some ch →
          Hub.cap ch = 256%nat ∧ (length (Hub.buf ch) ≤ 256)%nat.

Module MoreExamples.

(** A cache that still holds service 9, which has no row. *)
Definition svcGone : ExternalService :=
  mkExternalService 9%N "G" "http://g/health" "GET" "HTTP" 30 5 3 "UP" 0
    None.
Definition worldStale : World :=
  mkWorld {[ 1%N := Examples.svcA ]} 9%N [] {[ 9%N := svcGone ]} [] [].

(** A delivery for service A whose probe is answered with 200. *)
Definition envA_ok : Service.WorkerEnv :=
  Service.mkWorkerEnv (Service.job_of Examples.svcA, None) None None
    (Service.DoResponse 200) 12 None 7 None 8 9.

(** A delivery for service A at which both writes fail. *)
Definition envA_dbdown : Service.WorkerEnv :=
  Service.mkWorkerEnv (Service.job_of Examples.svcA, None) None None
    (Service.DoError "timeout") 12 (Some "db down") 7 (Some "db down") 8 9.

(** The tick of scenario 3 with a broker that refuses every publish. *)
Definition tick20_failing : Service.TickEnv :=
  Service.mkTickEnv None 20000000000 (λ _, Some "channel closed") [].

(** A hub with one subscriber whose buffer holds one frame. *)
Definition hub1 : Hub.State :=
  Hub.mkState {[ 1%positive ]}
    {[ 1%positive := Hub.mkChan [Examples.ev 1] 256 false ]}.

(** What happens to [hub1]: a broadcast, a receive of the writer of
    subscriber 1, another broadcast; and the hub afterwards. *)
Definition hub1_events : list Hub.Event :=
  [Hub.Publish (Examples.ev 2); Hub.Drain 1%positive;
   Hub.Publish (Examples.ev 3)].
Definition hub1_after : Hub.State :=
  Hub.mkState {[ 1%positive ]}
    {[ 1%positive := Hub.mkChan [Examples.ev 2; Examples.ev 3] 256 false ]}.


End MoreExamples.

(** * Properties *)

(** ** Machine integers *)

Lemma wrap_in_range (z : Z) : Int64.in_range z → Int64.wrap z = z.
Proof.
  unfold Int64.in_range, Int64.min_int, Int64.max_int, Int64.wrap.
  intros Hz. rewrite Z.mod_small; lia.
Qed.

Lemma add_one_no_overflow (n : Z) :
  Int64.min_int <= n < Int64.max_int → Int64.add n 1 = n + 1.
Proof.
  intros Hn. unfold Int64.add. apply wrap_in_range.
  unfold Int64.in_range, Int64.min_int, Int64.max_int in *. lia.
Qed.

(** ** The state machine *)

Section StateMachine.

Variable now : time.Time.
Variable s : ExternalService.

Lemma RecordSuccess_status : Status (RecordSuccess now s) = "UP".
Proof. reflexivity. Qed.

Lemma RecordSuccess_counter : ConsecutiveFailures (RecordSuccess now s) = 0.
Proof. reflexivity. Qed.

Lemma RecordSuccess_threshold :
  FailureThreshold (RecordSuccess now s) = FailureThreshold s.
Proof. reflexivity. Qed.

Lemma RecordFailure_counter :
  ConsecutiveFailures (RecordFailure now s)
  = Int64.add (ConsecutiveFailures s) 1.
Proof. unfold RecordFailure. by case ShouldMarkDown. Qed.

Lemma RecordFailure_threshold :
  FailureThreshold (RecordFailure now s) = FailureThreshold s.
Proof. unfold RecordFailure. by case ShouldMarkDown. Qed.

Lemma RecordFailure_id : ID (RecordFailure now s) = ID s.
Proof. unfold RecordFailure. by case ShouldMarkDown. Qed.

Lemma RecordFailure_checked :
  LastCheckedAt (RecordFailure now s) = Some now.
Proof. unfold RecordFailure. by case ShouldMarkDown. Qed.

(** The status after a failure: DOWN from the threshold on, otherwise what
    it was. *)
Lemma RecordFailure_status :
  Status (RecordFailure now s)
  = if FailureThreshold s <=? Int64.add (ConsecutiveFailures s) 1
    then "DOWN" else Status s.
Proof.
  unfold RecordFailure, ShouldMarkDown. cbn.
  by case (FailureThreshold s <=? Int64.add (ConsecutiveFailures s) 1).
Qed.

End StateMachine.

(** A failure keeps the threshold invariant as long as the counter does not
    overflow; a success establishes it for any threshold of at least 1. *)
Lemma apply_outcome_threshold_invariant (now : time.Time)
    (s : ExternalService) (success : bool) :
  threshold_invariant s →
  1 <= FailureThreshold s →
  Int64.min_int <= ConsecutiveFailures s < Int64.max_int →
  threshold_invariant (Repository.apply_outcome now s success).
Proof.
  intros [Hst Hiff] HT Hn. unfold threshold_invariant, Repository.apply_outcome.
  destruct success.
  - rewrite RecordSuccess_status, RecordSuccess_counter, RecordSuccess_threshold.
    split; [by left|]. split; [discriminate | intros ?; exfalso; lia].
  - rewrite RecordFailure_status, RecordFailure_counter, RecordFailure_threshold.
    rewrite add_one_no_overflow by done.
    destruct (Z.leb_spec (FailureThreshold s) (ConsecutiveFailures s + 1))
      as [Hge|Hlt].
    + split; [by right|]. by split.
    + split; [done|]. rewrite Hiff. lia.
Qed.

(** A record that satisfies the invariants of the data model satisfies the
    invariant the code keeps. *)
Lemma data_model_threshold_invariant (s : ExternalService) :
  Spec.data_model_invariants s →
  threshold_invariant s ∧ 1 <= FailureThreshold s
  ∧ Int64.min_int <= ConsecutiveFailures s <= Int64.max_int.
Proof.
  intros (Hst & _ & _ & HT & Hn & Hiff & _).
  split; [split; [done | by symmetry]|].
  unfold Int64.min_int, Int64.max_int in *. lia.
Qed.

(** ** Repository.UpdateServiceState *)

(** What [Save] leaves alone: the probe log, the cache, the trace and the
    log. *)
Lemma Save_frame dberr s w :
  let w1 := (Repository.Save dberr s w).2 in
  check_logs w1 = check_logs w ∧ cache w1 = cache w
  ∧ trace w1 = trace w ∧ log_output w1 = log_output w.
Proof.
  unfold Repository.Save. destruct dberr as [e|]; [done|].
  destruct (ID s =? 0)%N.
  - by destruct (services w !! _).
  - by destruct (services w !! ID s).
Qed.

(** [Save] reads the table and the sequence only. *)
Lemma Save_reads dberr s w w' :
  services w = services w' → services_seq w = services_seq w' →
  (Repository.Save dberr s w).1 = (Repository.Save dberr s w').1
  ∧ services (Repository.Save dberr s w).2
    = services (Repository.Save dberr s w').2.
Proof.
  intros Hdb Hseq. unfold Repository.Save. destruct dberr as [e|]; [done|].
  rewrite <- Hdb, <- Hseq. destruct (ID s =? 0)%N.
  - destruct (services w !! _); cbn; by rewrite <- ?Hdb.
  - destruct (services w !! ID s); cbn; by rewrite <- ?Hdb.
Qed.

(** A [Save] that fails writes no row and leaves the struct as it was. *)
Lemma Save_failed dberr s w e :
  (Repository.Save dberr s w).1.2 = Some e →
  (Repository.Save dberr s w).1.1 = s
  ∧ services (Repository.Save dberr s w).2 = services w.
Proof.
  unfold Repository.Save. destruct dberr as [e0|]; [done|].
  destruct (ID s =? 0)%N.
  - by destruct (services w !! _).
  - by destruct (services w !! ID s).
Qed.

(** A [Save] that succeeds stores the struct it returns under its key,
    which is not zero, and touches no other row. The struct is the one
    passed when a row with its key is updated; otherwise it is the one
    passed with the defaults filled in, under a key that was free: its own
    when that is not zero, the next value of the sequence when it is. *)
Lemma Save_succeeded dberr s w :
  (Repository.Save dberr s w).1.2 = None →
  let s1 := (Repository.Save dberr s w).1.1 in
  dberr = None
  ∧ services (Repository.Save dberr s w).2 = <[ID s1 := s1]> (services w)
  ∧ ID s1 ≠ 0%N
  ∧ (ID s ≠ 0%N → ID s1 = ID s)
  ∧ ((ID s ≠ 0%N ∧ is_Some (services w !! ID s) ∧ s1 = s)
     ∨ (ID s ≠ 0%N ∧ services w !! ID s = None
        ∧ s1 = Repository.with_defaults s)
     ∨ (ID s = 0%N ∧ services w !! N.succ (services_seq w) = None
        ∧ s1 = set_ID (N.succ (services_seq w))
                 (Repository.with_defaults s))).
Proof.
  unfold Repository.Save. destruct dberr as [e0|]; [done|].
  destruct (N.eqb_spec (ID s) 0) as [Hz|Hnz].
  - destruct (services w !! N.succ _) eqn:Hrow; [done|]. intros _. cbn.
    split; [done|]. split; [done|]. split; [lia|]. split; [done|].
    right. by right.
  - destruct (services w !! ID s) eqn:Hrow; intros _; cbn.
    + split; [done|]. split; [done|]. split; [done|]. split; [done|].
      left. by eauto.
    + split; [done|]. split; [done|]. split; [done|]. split; [done|].
      right. by left.
Qed.

(** The fields of a struct that no insert changes, and the ones that are
    changed only from their zero value. *)
Lemma with_defaults_fields (id : N) (s : ExternalService) :
  let s1 := set_ID id (Repository.with_defaults s) in
  Name s1 = Name s ∧ URL s1 = URL s
  ∧ ConsecutiveFailures s1 = ConsecutiveFailures s
  ∧ LastCheckedAt s1 = LastCheckedAt s
  ∧ (HTTPMethod s ≠ "" → HTTPMethod s1 = HTTPMethod s)
  ∧ (Protocol s ≠ "" → Protocol s1 = Protocol s)
  ∧ (Interval s ≠ 0 → Interval s1 = Interval s)
  ∧ (TimeoutSeconds s ≠ 0 → TimeoutSeconds s1 = TimeoutSeconds s)
  ∧ (FailureThreshold s ≠ 0 → FailureThreshold s1 = FailureThreshold s)
  ∧ (Status s ≠ "" → Status s1 = Status s).
Proof.
  cbn. repeat split; try done.
  - intros H. by destruct (String.eqb_spec (HTTPMethod s) "").
  - intros H. by destruct (String.eqb_spec (Protocol s) "").
  - intros H. by destruct (Z.eqb_spec (Interval s) 0).
  - intros H. by destruct (Z.eqb_spec (TimeoutSeconds s) 0).
  - intros H. by destruct (Z.eqb_spec (FailureThreshold s) 0).
  - intros H. by destruct (String.eqb_spec (Status s) "").
Qed.

(** The struct a successful [Save] returns, field by field. *)
Lemma Save_fields dberr s w :
  (Repository.Save dberr s w).1.2 = None →
  let s1 := (Repository.Save dberr s w).1.1 in
  Name s1 = Name s ∧ URL s1 = URL s
  ∧ ConsecutiveFailures s1 = ConsecutiveFailures s
  ∧ LastCheckedAt s1 = LastCheckedAt s
  ∧ (HTTPMethod s ≠ "" → HTTPMethod s1 = HTTPMethod s)
  ∧ (Protocol s ≠ "" → Protocol s1 = Protocol s)
  ∧ (Interval s ≠ 0 → Interval s1 = Interval s)
  ∧ (TimeoutSeconds s ≠ 0 → TimeoutSeconds s1 = TimeoutSeconds s)
  ∧ (FailureThreshold s ≠ 0 → FailureThreshold s1 = FailureThreshold s)
  ∧ (Status s ≠ "" → Status s1 = Status s).
Proof.
  intros Hok.
  destruct (Save_succeeded dberr s w Hok)
    as (_ & _ & _ & _ & [(_ & _ & Heq)|[(_ & _ & Heq)|(_ & _ & Heq)]]);
    cbn zeta; rewrite Heq.
  - by repeat split.
  - apply (with_defaults_fields (ID s) s).
  - apply with_defaults_fields.
Qed.

Lemma apply_outcome_id now s success :
  ID (Repository.apply_outcome now s success) = ID s.
Proof. destruct success; [done | apply RecordFailure_id]. Qed.

(** The computation of [UpdateServiceState]: the call is recorded, the
    state machine is applied to the struct, the struct is saved, and the
    status it has then is compared with the status it had. *)
Lemma UpdateServiceState_run dberr now s success w :
  Repository.UpdateServiceState dberr now s success w =
  let w0 := set_trace (λ t, (t ++ [EUpdateState (ID s) success])%list) w in
  let s1 := Repository.apply_outcome now s success in
  let r := Repository.Save dberr s1 w0 in
  ((r.1.1,
    match r.1.2 with
    | Some e => (None, Some e)
    | None =>
        (if negb (Status s =? Status r.1.1)%string
         then Some (mkStateChange (Status s) (Status r.1.1)) else None,
         None)
    end), r.2).
Proof.
  unfold Repository.UpdateServiceState, mbind, M_bind, emit, modify. cbn.
  destruct (Repository.Save _ _ _) as [[s2 [e|]] w1]; cbn; [done|].
  by case (negb _).
Qed.

(** What a successful [UpdateServiceState] returns and stores: the struct
    is stored under its key; the counter and the check time are those of
    the state machine, and so are the status and the threshold unless they
    had their zero value. *)
Lemma UpdateServiceState_saved dberr now s success w :
  let r := eval (Repository.UpdateServiceState dberr now s success) w in
  let w1 := exec (Repository.UpdateServiceState dberr now s success) w in
  r.2.2 = None →
  services w1 = <[ID r.1 := r.1]> (services w)
  ∧ ConsecutiveFailures r.1
    = ConsecutiveFailures (Repository.apply_outcome now s success)
  ∧ LastCheckedAt r.1 = Some now
  ∧ Name r.1 = Name s
  ∧ (Status s ≠ "" →
     Status r.1 = Status (Repository.apply_outcome now s success))
  ∧ (FailureThreshold s ≠ 0 → FailureThreshold r.1 = FailureThreshold s)
  ∧ (Interval s ≠ 0 → Interval r.1 = Interval s).
Proof.
  unfold eval, exec. rewrite UpdateServiceState_run. cbn zeta.
  set (s1 := Repository.apply_outcome now s success).
  set (w0 := set_trace _ w).
  destruct ((Repository.Save dberr s1 w0).1.2) as [e|] eqn:Hok; [done|].
  intros _. cbn [fst snd].
  destruct (Save_succeeded dberr s1 w0 Hok) as (_ & Hdb & _).
  destruct (Save_fields dberr s1 w0 Hok)
    as (Hname & _ & Hn & Hchk & _ & _ & Hint & _ & Hthr & Hstatus).
  assert (Hcfg : Name s1 = Name s ∧ FailureThreshold s1 = FailureThreshold s
                 ∧ Interval s1 = Interval s ∧ LastCheckedAt s1 = Some now).
  { subst s1. destruct success; cbn; [done|]. unfold RecordFailure.
    by case (ShouldMarkDown _). }
  destruct Hcfg as (Hname1 & Hthr1 & Hint1 & Hchk1).
  split; [done|]. split; [done|]. split; [congruence|].
  split; [congruence|]. split; [|split].
  - intros Hst. apply Hstatus. subst s1.
    destruct success; cbn; [done|]. rewrite RecordFailure_status.
    by destruct (_ <=? _).
  - intros Hnz. rewrite <- Hthr1. apply Hthr. by rewrite Hthr1.
  - intros Hnz. rewrite <- Hint1. apply Hint. by rewrite Hint1.
Qed.

(** C1 (as amended). For every service record whose status is UP or DOWN
    with DOWN exactly from the threshold on, with a threshold of at least 1
    and a counter below the largest [int64], and for every outcome: when
    [UpdateServiceState] completes without error, the record it returns is
    the persisted one, its status is DOWN if and only if
    [consecutive_failures >= failure_threshold], and a status UP implies
    [consecutive_failures < failure_threshold]. The counter is 0 after a
    success and one more than before after a failure, so UP does not imply a
    counter of 0. *)
Theorem UpdateServiceState_status_counter
    (dberr : option error) (now : time.Time) (s : ExternalService)
    (success : bool) (w : World) :
  threshold_invariant s →
  1 <= FailureThreshold s →
  Int64.min_int <= ConsecutiveFailures s < Int64.max_int →
  let r := eval (Repository.UpdateServiceState dberr now s success) w in
  let w1 := exec (Repository.UpdateServiceState dberr now s success) w in
  r.2.2 = None →
  services w1 !! ID r.1 = Some r.1
  ∧ (Status r.1 = "DOWN" ↔ FailureThreshold r.1 <= ConsecutiveFailures r.1)
  ∧ (Status r.1 = "UP" → ConsecutiveFailures r.1 < FailureThreshold r.1)
  ∧ (Status r.1 = "UP" ∨ Status r.1 = "DOWN")
  ∧ ConsecutiveFailures r.1
    = (if success then 0 else ConsecutiveFailures s + 1).
Proof.
  intros Hinv HT Hn r w1 Hok. subst r w1.
  pose proof (apply_outcome_threshold_invariant now s success Hinv HT Hn)
    as [Hst Hiff].
  assert (Hne : Status s ≠ "") by (by destruct Hinv as [[-> | ->] _]).
  destruct (UpdateServiceState_saved dberr now s success w Hok)
    as (Hdb & Hcount & _ & _ & Hstatus & Hthr & _).
  specialize (Hstatus Hne).
  assert (Hthr1 : FailureThreshold
                    (eval (Repository.UpdateServiceState dberr now s success)
                       w).1
                  = FailureThreshold (Repository.apply_outcome now s success)).
  { rewrite Hthr by lia. destruct success; cbn; [done|].
    by rewrite RecordFailure_threshold. }
  rewrite Hdb, Hstatus, Hcount, Hthr1.
  split; [by rewrite lookup_insert_eq|].
  split; [done|]. split.
  - intros Hup. destruct Hiff as [_ Hback].
    destruct (Z.lt_ge_cases
                (ConsecutiveFailures (Repository.apply_outcome now s success))
                (FailureThreshold (Repository.apply_outcome now s success)))
      as [Hlt|Hge]; [done|].
    apply Hback in Hge. rewrite Hup in Hge. discriminate.
  - split; [done|]. destruct success; [done|]. cbn.
    rewrite RecordFailure_counter. by apply add_one_no_overflow.
Qed.

Lemma UpdateServiceState_status_counter_witness :
  let r := eval (Repository.UpdateServiceState None 7 Examples.svcA false)
             Examples.worldA in
  let w1 := exec (Repository.UpdateServiceState None 7 Examples.svcA false)
              Examples.worldA in
  services w1 !! ID r.1 = Some r.1
  ∧ (Status r.1 = "DOWN" ↔ FailureThreshold r.1 <= ConsecutiveFailures r.1)
  ∧ (Status r.1 = "UP" → ConsecutiveFailures r.1 < FailureThreshold r.1)
  ∧ (Status r.1 = "UP" ∨ Status r.1 = "DOWN")
  ∧ ConsecutiveFailures r.1 = 0 + 1.
Proof.
  apply (UpdateServiceState_status_counter None 7 Examples.svcA false
           Examples.worldA).
  - split; [by left|]. split; [discriminate | cbn; lia].
  - cbn; lia.
  - cbn; unfold Int64.min_int, Int64.max_int; lia.
  - reflexivity.
Defined.

(** C1 (as stated) fails: scenario 1 of the specification after its first
    failure. The record satisfies the invariants of the data model, the
    update completes without error, and the persisted record is UP with a
    counter of 1. *)
Lemma UpdateServiceState_I1_counterexample :
  Spec.data_model_invariants Examples.svcA
  ∧ 1 <= FailureThreshold Examples.svcA
  ∧ (eval (Repository.UpdateServiceState None 7 Examples.svcA false)
       Examples.worldA).2.2 = None
  ∧ ∃ r, services
           (exec (Repository.UpdateServiceState None 7 Examples.svcA false)
              Examples.worldA) !! 1%N = Some r
         ∧ Status r = "UP" ∧ ConsecutiveFailures r = 1
         ∧ ¬ Spec.status_counter_I1 r.
Proof.
  split.
  { unfold Spec.data_model_invariants, Int64.max_int; cbn.
    repeat split; try lia; try discriminate; try done; by left. }
  split; [cbn; lia|]. split; [reflexivity|].
  eexists. split; [by vm_compute|].
  split; [reflexivity|]. split; [reflexivity|].
  intros [_ Hup]. specialize (Hup eq_refl). discriminate Hup.
Qed.

(** ** C4: a failure from UP *)

(** C4. For every service with status UP, a counter [n] and a threshold [T]
    (a record of the data model: the counter is not negative, and a service
    that is UP is below its threshold, [0 <= n < T]), a failed outcome
    yields the counter "n+1 if n+1 < T, else T" and the status "UP if
    n+1 < T, else DOWN"; in particular, with [T = 1] a single failure from
    UP gives DOWN. The counter is [n + 1] in both cases. *)
Theorem RecordFailure_from_UP (now : time.Time) (s : ExternalService) :
  Status s = "UP" →
  0 <= ConsecutiveFailures s < FailureThreshold s →
  FailureThreshold s <= Int64.max_int →
  let n := ConsecutiveFailures s in
  let T := FailureThreshold s in
  let s1 := RecordFailure now s in
  ConsecutiveFailures s1 = Spec.table_failure_counter n T
  ∧ Status s1 = Spec.table_failure_status n T
  ∧ ConsecutiveFailures s1 = n + 1
  ∧ FailureThreshold s1 = T
  ∧ (T = 1 → Status s1 = "DOWN").
Proof.
  intros Hup Hn HT n T s1. subst s1.
  rewrite RecordFailure_counter, RecordFailure_status, RecordFailure_threshold.
  rewrite add_one_no_overflow
    by (unfold Int64.min_int, Int64.max_int in *; lia).
  fold n T. fold n T in Hn.
  unfold Spec.table_failure_status, Spec.table_failure_counter.
  destruct (Z.leb_spec T (n + 1)) as [Hge|Hlt];
    destruct (Z.ltb_spec (n + 1) T) as [Hlt'|Hge']; try lia.
  - split; [lia|]. by repeat split.
  - split; [done|]. split; [done|]. split; [done|]. split; [done|].
    intros ?; exfalso; lia.
Qed.

Lemma RecordFailure_from_UP_witness :
  ConsecutiveFailures (RecordFailure 7 Examples.svcT1)
  = Spec.table_failure_counter 0 1
  ∧ Status (RecordFailure 7 Examples.svcT1) = Spec.table_failure_status 0 1
  ∧ ConsecutiveFailures (RecordFailure 7 Examples.svcT1) = 0 + 1
  ∧ FailureThreshold (RecordFailure 7 Examples.svcT1) = 1
  ∧ (1 = 1 → Status (RecordFailure 7 Examples.svcT1) = "DOWN").
Proof.
  apply (RecordFailure_from_UP 7 Examples.svcT1).
  - reflexivity.
  - cbn; lia.
  - cbn; unfold Int64.max_int; lia.
Defined.

(** ** C9: failures, then a success *)

Lemma apply_outcomes_app s l1 l2 :
  apply_outcomes s (l1 ++ l2) = apply_outcomes (apply_outcomes s l1) l2.
Proof. apply foldl_app. Qed.

(** C9. From any service state, [N] failed outcomes followed by one
    successful outcome give the status UP and [consecutive_failures = 0],
    for every [N >= 0]; [clock i] is the instant of the outcome number [i]. *)
Theorem failures_then_success (s : ExternalService) (N : nat)
    (clock : nat → time.Time) :
  let failures := (λ i, (clock i, false)) <$> seq 0 N in
  let s1 := apply_outcomes s (failures ++ [(clock N, true)])%list in
  Status s1 = "UP" ∧ ConsecutiveFailures s1 = 0.
Proof. cbn. rewrite apply_outcomes_app. by cbn. Qed.

(** ** The worker *)

Lemma GetServiceByName_pure dberr name w :
  Repository.GetServiceByName dberr name w
  = (eval (Repository.GetServiceByName dberr name) w, w).
Proof.
  unfold eval, Repository.GetServiceByName.
  destruct dberr; [reflexivity|]. by case (Repository.first_row _ _).
Qed.

Lemma effects_of_app {A} (m : M A) (w : World) (l : list Effect) :
  trace (exec m w) = (trace w ++ l)%list → effects_of m w = l.
Proof. unfold effects_of. intros ->. apply drop_app_length. Qed.

(** [UpdateServiceState] adds its call to the trace and leaves the probe
    log, the cache and the log alone. *)
Lemma UpdateServiceState_world dberr now s success w :
  let w1 := exec (Repository.UpdateServiceState dberr now s success) w in
  trace w1 = (trace w ++ [EUpdateState (ID s) success])%list
  ∧ check_logs w1 = check_logs w ∧ cache w1 = cache w
  ∧ log_output w1 = log_output w.
Proof.
  unfold exec. rewrite UpdateServiceState_run. cbn zeta. cbn [snd].
  by destruct (Save_frame dberr (Repository.apply_outcome now s success)
                 (set_trace (λ t, (t ++ [EUpdateState (ID s) success])%list) w))
    as (-> & -> & -> & ->).
Qed.

(** [UpdateServiceState] reads the table and the sequence only. *)
Lemma UpdateServiceState_reads dberr now s success w w' :
  services w = services w' → services_seq w = services_seq w' →
  eval (Repository.UpdateServiceState dberr now s success) w
  = eval (Repository.UpdateServiceState dberr now s success) w'
  ∧ services (exec (Repository.UpdateServiceState dberr now s success) w)
    = services (exec (Repository.UpdateServiceState dberr now s success) w').
Proof.
  intros Hdb Hseq. unfold eval, exec. rewrite !UpdateServiceState_run.
  cbn zeta. cbn [fst snd].
  destruct (Save_reads dberr (Repository.apply_outcome now s success)
              (set_trace (λ t, (t ++ [EUpdateState (ID s) success])%list) w)
              (set_trace (λ t, (t ++ [EUpdateState (ID s) success])%list) w')
              Hdb Hseq) as [-> ->].
  done.
Qed.

Lemma handle_delivery_completed env w job svc :
  Service.unmarshal env = (job, None) →
  eval (Repository.GetServiceByName (Service.lookup_dberr env)
          (ServiceName job)) w = (Some svc, None) →
  Service.new_request_err env = None →
  let o := Service.probe_outcome (Service.do_result env) in
  let entry :=
    mkServiceCheckLog 0%N (ID svc) o.1.1.1 o.1.1.2 (Service.latencyMs env)
      o.1.2 (Service.log_now env) in
  let r := eval (Repository.UpdateServiceState (Service.update_dberr env)
                   (Service.update_now env) svc o.2) w in
  let w1 := exec (Service.handle_delivery env) w in
  trace w1
  = (trace w
     ++ [ELogAppend entry; EUpdateState (ID svc) o.2]
     ++ match r.2.1 with
        | Some change =>
            [EBroadcast (mkEvent "service_state_change" (ID r.1) (Name r.1)
                           (From change) (To change) (Service.event_now env))]
        | None => []
        end
     ++ [EAck])%list
  ∧ services w1
    = services (exec (Repository.UpdateServiceState (Service.update_dberr env)
                        (Service.update_now env) svc o.2) w).
Proof.
  intros Hjob Hsvc Hreq o entry r w1.
  subst w1 r entry. unfold exec, eval.
  unfold Service.handle_delivery. rewrite Hjob.
  unfold mbind, M_bind. rewrite GetServiceByName_pure, Hsvc, Hreq.
  subst o. destruct (Service.probe_outcome _) as [[[status code] msg] success].
  cbn [fst snd].
  destruct (Repository.SaveServiceCheckLog _ _ _ _ _ _ _ w) as [lerr wl]
    eqn:Hlog.
  assert (Hwl : services wl = services w ∧ services_seq wl = services_seq w
                ∧ trace wl
                  = (trace w
                     ++ [ELogAppend
                           (mkServiceCheckLog 0%N (ID svc) status code
                              (Service.latencyMs env) msg
                              (Service.log_now env))])%list).
  { revert Hlog. unfold Repository.SaveServiceCheckLog, mbind, M_bind, emit,
      modify. destruct (Service.log_dberr env); cbn; by intros [= _ <-]. }
  destruct Hwl as (Hdb & Hseq & Htrace).
  set (wl1 := (match lerr with
               | Some e => log_Printf (LWorkerLogSaveFailed (Name svc) e)
               | None => mret ()
               end wl).2).
  assert (Hwl1 : services wl1 = services w ∧ services_seq wl1 = services_seq w
                 ∧ trace wl1 = trace wl).
  { subst wl1. by destruct lerr. }
  destruct Hwl1 as (Hdb1 & Hseq1 & Htrace1).
  assert (Hstep : (match lerr with
                   | Some e => log_Printf (LWorkerLogSaveFailed (Name svc) e)
                   | None => mret ()
                   end wl) = ((), wl1)).
  { subst wl1. by destruct lerr. }
  rewrite Hstep. clear Hstep.
  destruct (UpdateServiceState_reads (Service.update_dberr env)
              (Service.update_now env) svc success wl1 w Hdb1 Hseq1)
    as [Heval Hservices].
  destruct (UpdateServiceState_world (Service.update_dberr env)
              (Service.update_now env) svc success wl1)
    as (Htrace2 & _).
  unfold eval, exec in Heval, Hservices, Htrace2.
  rewrite <- Heval, <- Hservices.
  destruct (Repository.UpdateServiceState _ _ _ _ wl1)
    as [[svc1 [change uerr]] wu].
  cbn [fst snd] in *.
  unfold Service.LogStateTransition, Service.BroadcastStateChange, mbind,
    M_bind, mret, M_ret, emit, log_Printf, modify.
  destruct uerr, change; cbn; rewrite Htrace2, Htrace1, Htrace;
    rewrite <- ?app_assoc; by cbn.
Qed.

(** [first_row] returns a row of the table that satisfies the condition. *)
Lemma first_row_Some P db v :
  Repository.first_row P db = Some v → ∃ k, db !! k = Some v ∧ P v = true.
Proof.
  unfold Repository.first_row.
  destruct (foldr _ _ _) as [[k v']|] eqn:Hfold; [|discriminate].
  intros [= ->]. exists k.
  assert ((k, v) ∈ map_to_list db ∧ P v = true) as [Hin HP].
  { revert k v Hfold. induction (map_to_list db) as [|[k1 v1] l IH];
      intros k v; cbn; [discriminate|].
    destruct (P v1) eqn:HP1.
    - destruct (foldr _ _ l) as [[k0 v0]|] eqn:Hrest.
      + destruct (k1 <? k0)%N; intros [= <- <-].
        * split; [left | done].
        * destruct (IH _ _ eq_refl). split; [by right | done].
      + intros [= <- <-]. split; [left | done].
    - intros Hrest. destruct (IH _ _ Hrest). split; [by right | done]. }
  split; [by apply elem_of_map_to_list | done].
Qed.

(** [GetServiceByName] returns either a stored row and no error, or no row
    and an error. *)
Lemma GetServiceByName_result dberr name w :
  (∃ svc k, eval (Repository.GetServiceByName dberr name) w = (Some svc, None)
            ∧ services w !! k = Some svc)
  ∨ (∃ e, eval (Repository.GetServiceByName dberr name) w = (None, Some e)).
Proof.
  unfold eval, Repository.GetServiceByName.
  destruct dberr as [e|]; [right; by exists e|].
  destruct (Repository.first_row _ _) as [svc|] eqn:Hrow.
  - apply first_row_Some in Hrow as (k & Hk & _). left. by exists svc, k.
  - right. by eexists.
Qed.

Lemma handle_delivery_cases env w :
  rejected env w
  ∨ ∃ job svc k,
      Service.unmarshal env = (job, None)
      ∧ eval (Repository.GetServiceByName (Service.lookup_dberr env)
                (ServiceName job)) w = (Some svc, None)
      ∧ services w !! k = Some svc
      ∧ Service.new_request_err env = None.
Proof.
  destruct (Service.unmarshal env) as [job [e|]] eqn:Hjob.
  { left. unfold rejected, exec, Service.handle_delivery. by rewrite Hjob. }
  destruct (GetServiceByName_result (Service.lookup_dberr env)
              (ServiceName job) w) as [(svc & k & Hsvc & Hk)|[e Hsvc]].
  - destruct (Service.new_request_err env) as [e|] eqn:Hreq.
    + left. unfold rejected, exec, Service.handle_delivery.
      rewrite Hjob. unfold mbind, M_bind.
      by rewrite GetServiceByName_pure, Hsvc, Hreq.
    + right. by exists job, svc, k.
  - left. unfold rejected, exec, Service.handle_delivery.
    rewrite Hjob. unfold mbind, M_bind.
    by rewrite GetServiceByName_pure, Hsvc.
Qed.

(** The worker only adds to the trace. *)
Lemma handle_delivery_trace_extends env w :
  trace (exec (Service.handle_delivery env) w)
  = (trace w ++ effects_of (Service.handle_delivery env) w)%list.
Proof.
  destruct (handle_delivery_cases env w)
    as [(Hrej & _)|(job & svc & k & Hjob & Hsvc & Hk & Hreq)].
  - by rewrite (effects_of_app _ _ _ Hrej).
  - destruct (handle_delivery_completed env w job svc Hjob Hsvc Hreq)
      as [Htrace _].
    by rewrite (effects_of_app _ _ _ Htrace).
Qed.

(** The loop of [StartWorker] handles the deliveries one after the other. *)
Lemma StartWorker_cons env rest w :
  Service.StartWorker (env :: rest) w
  = Service.StartWorker rest (exec (Service.handle_delivery env) w).
Proof.
  unfold Service.StartWorker, exec. cbn [Service.for_each foldr].
  unfold mbind at 1. unfold M_bind.
  by destruct (Service.handle_delivery env w) as [[] w1].
Qed.

Lemma StartWorker_trace_extends (msgs : list Service.WorkerEnv) :
  ∀ w, trace (exec (Service.StartWorker msgs) w)
       = (trace w ++ effects_of (Service.StartWorker msgs) w)%list.
Proof.
  induction msgs as [|env rest IH]; intros w.
  - unfold effects_of. cbn. by rewrite drop_all, app_nil_r.
  - assert (∃ t, trace (exec (Service.StartWorker (env :: rest)) w)
                 = (trace w ++ t)%list) as [t Ht].
    { unfold exec at 1. rewrite StartWorker_cons.
      fold (exec (Service.StartWorker rest)
              (exec (Service.handle_delivery env) w)).
      rewrite IH, handle_delivery_trace_extends, <- app_assoc. by eexists. }
    by rewrite (effects_of_app _ _ _ Ht).
Qed.

Lemma StartWorker_effects env rest w :
  effects_of (Service.StartWorker (env :: rest)) w
  = (effects_of (Service.handle_delivery env) w
     ++ effects_of (Service.StartWorker rest)
          (exec (Service.handle_delivery env) w))%list.
Proof.
  apply effects_of_app. unfold exec at 1. rewrite StartWorker_cons.
  fold (exec (Service.StartWorker rest) (exec (Service.handle_delivery env) w)).
  by rewrite StartWorker_trace_extends, handle_delivery_trace_extends,
    <- app_assoc.
Qed.

(** A reported change carries the status before the call and the status
    stored after it, and the two differ. *)
Lemma UpdateServiceState_change dberr now s success w c :
  let r := eval (Repository.UpdateServiceState dberr now s success) w in
  let w1 := exec (Repository.UpdateServiceState dberr now s success) w in
  r.2.1 = Some c →
  From c = Status s ∧ stored_status w1 (ID r.1) = Some (To c)
  ∧ From c ≠ To c.
Proof.
  cbn zeta. intros Hc.
  assert (Hok : (eval (Repository.UpdateServiceState dberr now s success)
                   w).2.2 = None).
  { revert Hc. unfold eval. rewrite UpdateServiceState_run. cbn.
    by destruct (_.1.2). }
  destruct (UpdateServiceState_saved dberr now s success w Hok) as (Hdb & _).
  unfold stored_status. rewrite Hdb, lookup_insert_eq. cbn.
  revert Hc. unfold eval. rewrite UpdateServiceState_run. cbn.
  destruct (_.1.2); [done|]. cbn.
  destruct (String.eqb_spec (Status s)
              (Status (Repository.Save dberr
                         (Repository.apply_outcome now s success)
                         (set_trace
                            (λ t, (t ++ [EUpdateState (ID s) success])%list)
                            w)).1.1)); cbn; [done|].
  by intros [= <-].
Qed.

(** Without a reported change the stored status is the one of before. *)
Lemma UpdateServiceState_no_change dberr now s success w :
  services w !! ID s = Some s →
  let r := eval (Repository.UpdateServiceState dberr now s success) w in
  let w1 := exec (Repository.UpdateServiceState dberr now s success) w in
  r.2.1 = None → stored_status w1 (ID r.1) = Some (Status s).
Proof.
  intros Hstored. cbn zeta.
  destruct ((eval (Repository.UpdateServiceState dberr now s success) w).2.2)
    as [e|] eqn:Hok.
  - intros _. revert Hok. unfold eval, exec, stored_status.
    rewrite UpdateServiceState_run. cbn.
    destruct (_.1.2) as [e'|] eqn:Herr; [|done]. intros _.
    destruct (Save_failed _ _ _ _ Herr) as [-> ->]. cbn.
    by rewrite apply_outcome_id, Hstored.
  - destruct (UpdateServiceState_saved dberr now s success w Hok)
      as (Hdb & _).
    unfold stored_status. rewrite Hdb, lookup_insert_eq. cbn.
    revert Hok. unfold eval. rewrite UpdateServiceState_run. cbn.
    destruct (_.1.2); [done|]. cbn. intros _.
    destruct (String.eqb_spec (Status s)
                (Status (Repository.Save dberr
                           (Repository.apply_outcome now s success)
                           (set_trace
                              (λ t,
                                 (t ++ [EUpdateState (ID s) success])%list)
                              w)).1.1)); cbn; [congruence | discriminate].
Qed.

(** C2 (as amended). For a record [s] that is the row stored under its id
    (as when the worker passes the row it has just loaded) and every
    outcome, [UpdateServiceState] returns a non-nil [StateChange] if and
    only if the status stored after the call differs from the status
    before it, and then [From] and [To] are the old and the new status;
    otherwise it returns nil. The worker broadcasts an event only for a
    non-nil [StateChange] of its call: every event it hands to the hub
    carries the status the loaded record had as [From], the status stored
    afterwards as [To], and the two differ. *)
Theorem UpdateServiceState_reports_transition
    (dberr : option error) (now : time.Time) (s : ExternalService)
    (success : bool) (w : World) :
  services w !! ID s = Some s →
  let r := eval (Repository.UpdateServiceState dberr now s success) w in
  let w1 := exec (Repository.UpdateServiceState dberr now s success) w in
  (is_Some r.2.1 ↔ stored_status w1 (ID r.1) ≠ Some (Status s))
  ∧ (∀ c, r.2.1 = Some c →
          From c = Status s ∧ stored_status w1 (ID r.1) = Some (To c))
  ∧ (r.2.1 = None → stored_status w1 (ID r.1) = Some (Status s))
  ∧ ∀ (env : Service.WorkerEnv) (w0 : World) (ev : ServiceStateChangeEvent),
      EBroadcast ev ∈ effects_of (Service.handle_delivery env) w0 →
      ∃ job svc k c,
        Service.unmarshal env = (job, None)
        ∧ eval (Repository.GetServiceByName (Service.lookup_dberr env)
                  (ServiceName job)) w0 = (Some svc, None)
        ∧ services w0 !! k = Some svc
        ∧ (eval (Repository.UpdateServiceState (Service.update_dberr env)
                   (Service.update_now env) svc
                   (Service.probe_outcome (Service.do_result env)).2)
             w0).2.1 = Some c
        ∧ EvFrom ev = Status svc
        ∧ EvFrom ev = From c ∧ EvTo ev = To c
        ∧ stored_status (exec (Service.handle_delivery env) w0)
            (EvServiceID ev) = Some (EvTo ev)
        ∧ EvFrom ev ≠ EvTo ev.
Proof.
  intros Hstored r w1. subst r w1. split; [|split; [|split]].
  - split.
    + intros [c Hc].
      destruct (UpdateServiceState_change _ _ _ _ _ _ Hc) as (Hfrom & -> & Hne).
      rewrite <- Hfrom. congruence.
    + intros Hdiff. destruct (_.2.1) as [c|] eqn:Hc; [done|].
      exfalso. apply Hdiff. by apply UpdateServiceState_no_change.
  - intros c Hc.
    by destruct (UpdateServiceState_change _ _ _ _ _ _ Hc) as (? & ? & _).
  - by apply UpdateServiceState_no_change.
  - clear. intros env w0 ev Hev.
    destruct (handle_delivery_cases env w0)
      as [(Hrej & _)|(job & svc & k & Hjob & Hsvc & Hk & Hreq)].
    { rewrite (effects_of_app _ _ _ Hrej) in Hev.
      apply list_elem_of_singleton in Hev. discriminate. }
    destruct (handle_delivery_completed env w0 job svc Hjob Hsvc Hreq)
      as [Htrace Hdb].
    rewrite (effects_of_app _ _ _ Htrace) in Hev.
    unfold stored_status. rewrite Hdb. clear Htrace Hdb.
    destruct (_.2.1) as [c|] eqn:Hc; cbn in Hev;
      rewrite !elem_of_cons in Hev;
      destruct Hev as [Hev|[Hev|[Hev|Hev]]]; try discriminate;
      try (by apply elem_of_nil in Hev).
    + injection Hev as ->.
      destruct (UpdateServiceState_change _ _ _ _ _ _ Hc) as (Hfrom & Hto & Hne).
      exists job, svc, k, c. cbn. by repeat split.
    + destruct Hev as [Hev|Hev]; [discriminate | by apply elem_of_nil in Hev].
Qed.

Lemma UpdateServiceState_reports_transition_witness :
  services Examples.worldA2 !! ID Examples.svcA2 = Some Examples.svcA2
  ∧ (is_Some
       (eval (Repository.UpdateServiceState None 7 Examples.svcA2 false)
          Examples.worldA2).2.1
     ↔ stored_status
         (exec (Repository.UpdateServiceState None 7 Examples.svcA2 false)
            Examples.worldA2)
         (ID (eval (Repository.UpdateServiceState None 7 Examples.svcA2 false)
                Examples.worldA2).1)
       ≠ Some (Status Examples.svcA2))
  ∧ (eval (Repository.UpdateServiceState None 7 Examples.svcA2 false)
       Examples.worldA2).2.1 = Some (mkStateChange "UP" "DOWN")
  ∧ stored_status
      (exec (Repository.UpdateServiceState None 7 Examples.svcA2 false)
         Examples.worldA2) 1%N = Some "DOWN".
Proof.
  assert (H : services Examples.worldA2 !! ID Examples.svcA2
              = Some Examples.svcA2) by (by vm_compute).
  split; [exact H|]. split; [|split; by vm_compute].
  exact (proj1 (UpdateServiceState_reports_transition None 7 Examples.svcA2
                  false Examples.worldA2 H)).
Defined.

(** C2 (as stated) fails for a record that is not the stored row. The
    struct is a copy of service A from before its third failure (UP, two
    failures counted); the row has moved on and is DOWN. The call with a
    failed outcome returns the change from UP to DOWN, while the stored
    status is DOWN before the call and DOWN after it: the change is read
    off the struct, not off the stored row. *)
Lemma UpdateServiceState_stale_counterexample :
  let r := eval (Repository.UpdateServiceState None 7 Examples.svcA2 false)
             Examples.worldA_down in
  let w1 := exec (Repository.UpdateServiceState None 7 Examples.svcA2 false)
              Examples.worldA_down in
  stored_status Examples.worldA_down (ID Examples.svcA2) = Some "DOWN"
  ∧ r.2 = (Some (mkStateChange "UP" "DOWN"), None)
  ∧ stored_status w1 (ID Examples.svcA2) = Some "DOWN"
  ∧ ¬ (is_Some r.2.1
       ↔ stored_status w1 (ID Examples.svcA2)
         ≠ stored_status Examples.worldA_down (ID Examples.svcA2)).
Proof.
  cbn zeta.
  assert (Hbefore : stored_status Examples.worldA_down (ID Examples.svcA2)
                    = Some "DOWN") by (by vm_compute).
  assert (Hret : (eval (Repository.UpdateServiceState None 7 Examples.svcA2
                          false) Examples.worldA_down).2
                 = (Some (mkStateChange "UP" "DOWN"), None))
    by (by vm_compute).
  assert (Hafter : stored_status
                     (exec (Repository.UpdateServiceState None 7
                              Examples.svcA2 false) Examples.worldA_down)
                     (ID Examples.svcA2) = Some "DOWN") by (by vm_compute).
  split; [done|]. split; [done|]. split; [done|].
  rewrite Hret, Hbefore, Hafter. intros [Hchange _].
  by apply Hchange; [eexists|].
Qed.

(** C3. For every delivery the worker processes to completion (the payload
    decodes, the service resolves, the request builds), the effects of the
    processing are, in this order: one append of a probe log for the
    service, the call of [UpdateServiceState], at most one broadcast, and
    the ack. So exactly one log append is attempted, it comes before the
    state update, and the ack is the last effect, after the state update and
    the broadcast. *)
Theorem worker_log_update_ack_order (env : Service.WorkerEnv) (w : World)
    (job : HealthCheckJob) (svc : ExternalService) :
  Service.unmarshal env = (job, None) →
  eval (Repository.GetServiceByName (Service.lookup_dberr env)
          (ServiceName job)) w = (Some svc, None) →
  Service.new_request_err env = None →
  ∃ (entry : ServiceCheckLog) (success : bool) (bcast : list Effect),
    effects_of (Service.handle_delivery env) w
    = ([ELogAppend entry; EUpdateState (ID svc) success] ++ bcast ++ [EAck])%list
    ∧ ExternalServiceID entry = ID svc
    ∧ (bcast = [] ∨ ∃ ev, bcast = [EBroadcast ev])
    ∧ length (filter is_log_append
                (effects_of (Service.handle_delivery env) w)) = 1%nat
    ∧ last (effects_of (Service.handle_delivery env) w) = Some EAck
    ∧ length (filter is_ack (effects_of (Service.handle_delivery env) w))
      = 1%nat.
Proof.
  intros Hjob Hsvc Hreq.
  destruct (handle_delivery_completed env w job svc Hjob Hsvc Hreq)
    as [Htrace _].
  rewrite (effects_of_app _ _ _ Htrace).
  eexists _, _, _. split; [reflexivity|]. split; [reflexivity|].
  destruct (_.2.1) as [c|]; cbn.
  - split; [right; by eexists | done].
  - split; [by left | done].
Qed.

Lemma worker_log_update_ack_order_witness :
  ∃ (entry : ServiceCheckLog) (success : bool) (bcast : list Effect),
    effects_of (Service.handle_delivery Examples.envA_fail) Examples.worldA
    = ([ELogAppend entry; EUpdateState (ID Examples.svcA) success]
       ++ bcast ++ [EAck])%list
    ∧ ExternalServiceID entry = ID Examples.svcA
    ∧ (bcast = [] ∨ ∃ ev, bcast = [EBroadcast ev])
    ∧ length (filter is_log_append
                (effects_of (Service.handle_delivery Examples.envA_fail)
                   Examples.worldA)) = 1%nat
    ∧ last (effects_of (Service.handle_delivery Examples.envA_fail)
              Examples.worldA) = Some EAck
    ∧ length (filter is_ack
                (effects_of (Service.handle_delivery Examples.envA_fail)
                   Examples.worldA)) = 1%nat.
Proof.
  apply (worker_log_update_ack_order Examples.envA_fail Examples.worldA
           (Service.job_of Examples.svcA) Examples.svcA).
  - reflexivity.
  - by vm_compute.
  - reflexivity.
Defined.

(** C7. For every answer of the HTTP client: the outcome is a success if
    and only if a response was received and its status code is below 400;
    after a transport error the recorded status code is 0 and the recorded
    error is the error text; the log status is "UP" exactly when the outcome
    is a success and "DOWN" otherwise. For a delivery processed to
    completion, these are the status, code and error of the log entry the
    worker appends, and the success flag it passes to the state update. *)
Theorem probe_outcome_classification (r : Service.DoResult) :
  let o := Service.probe_outcome r in
  let status := o.1.1.1 in
  let statusCode := o.1.1.2 in
  let errorMsg := o.1.2 in
  let success := o.2 in
  (success = true ↔ ∃ code, r = Service.DoResponse code ∧ code < 400)
  ∧ (∀ e, r = Service.DoError e → statusCode = 0 ∧ errorMsg = e)
  ∧ (∀ code, r = Service.DoResponse code →
             statusCode = code ∧ errorMsg = "")
  ∧ (status = "UP" ↔ success = true)
  ∧ (status = "DOWN" ↔ success = false)
  ∧ ∀ (env : Service.WorkerEnv) (w : World) (job : HealthCheckJob)
      (svc : ExternalService),
      Service.do_result env = r →
      Service.unmarshal env = (job, None) →
      eval (Repository.GetServiceByName (Service.lookup_dberr env)
              (ServiceName job)) w = (Some svc, None) →
      Service.new_request_err env = None →
      take 2 (effects_of (Service.handle_delivery env) w)
      = [ELogAppend
           (mkServiceCheckLog 0%N (ID svc) status statusCode
              (Service.latencyMs env) errorMsg (Service.log_now env));
         EUpdateState (ID svc) success].
Proof.
  cbn zeta. split; [|split; [|split; [|split; [|split]]]].
  - destruct r as [code|e]; cbn.
    + destruct (Z.ltb_spec code 400); cbn; split.
      * intros _. by exists code.
      * done.
      * discriminate.
      * intros (c & [= <-] & Hlt). lia.
    + split; [discriminate|]. by intros (c & ? & _).
  - intros e ->. by cbn.
  - intros code ->. cbn. by case (code <? 400).
  - destruct r as [code|e]; cbn; [by case (code <? 400)|done].
  - destruct r as [code|e]; cbn; [by case (code <? 400)|done].
  - intros env w job svc <- Hjob Hsvc Hreq.
    destruct (handle_delivery_completed env w job svc Hjob Hsvc Hreq)
      as [Htrace _].
    by rewrite (effects_of_app _ _ _ Htrace).
Qed.

(** ** The scheduler *)

(** Within the range of [time.Duration] the code computes the due-time rule
    of the specification. *)
Lemma shouldRun_due (s : ExternalService) (now : time.Time) :
  Int64.in_range (Interval s * time.Second) →
  Service.shouldRun s now = true ↔ Spec.due s now.
Proof.
  intros Hrange. unfold Service.shouldRun, Spec.due.
  destruct (LastCheckedAt s) as [last|]; [|by split; [left|]].
  unfold time.After, time.Add, Int64.mul. rewrite (wrap_in_range _ Hrange).
  unfold time.Second. rewrite Z.ltb_lt. split.
  - intros Hlt. right. by exists last.
  - intros [|(l & [= <-] & Hlt)]; done.
Qed.

(** Whatever the runtime picks, a range visits every entry once; and
    every order of the entries is the range for some pick. *)
Lemma range_order_Permutation {A} (n : nat) :
  ∀ (choice : list nat) (l : list A),
    length l = n → range_order n choice l ≡ₚ l.
Proof.
  induction n as [|n IH]; intros choice l Hlen.
  { by rewrite (nil_length_inv l Hlen). }
  cbn [range_order]. cbn zeta.
  set (i := (hd 0%nat choice `mod` length l)%nat).
  assert (Hi : (i < length l)%nat)
    by (subst i; apply Nat.mod_upper_bound; lia).
  destruct (lookup_lt_is_Some_2 l i Hi) as [x Hx]. rewrite Hx.
  rewrite (delete_Permutation l i x Hx) at 2. constructor.
  apply IH. rewrite length_delete by (by eexists). lia.
Qed.

Lemma range_map_Permutation {A} (choice : list nat) (m : gmap N A) :
  range_map choice m ≡ₚ map_to_list m.
Proof. by apply range_order_Permutation. Qed.

Lemma range_order_any {A} (l' : list A) :
  ∀ l, l' ≡ₚ l → ∃ choice, range_order (length l) choice l = l'.
Proof.
  induction l' as [|x l' IH]; intros l Hperm.
  { apply Permutation_nil_l in Hperm as <-. by exists []. }
  assert (Hin : x ∈ l) by (rewrite <- Hperm; left).
  apply list_elem_of_lookup in Hin as [i Hi].
  assert (Hrest : l' ≡ₚ delete i l).
  { apply (Permutation_cons_inv (a := x)).
    by rewrite Hperm, <- (delete_Permutation l i x Hi). }
  destruct (IH _ Hrest) as [choice Hchoice].
  exists (i :: choice).
  pose proof (lookup_lt_Some _ _ _ Hi) as Hlt.
  destruct (length l) as [|n] eqn:Hlen; [lia|].
  cbn [range_order hd tl]. cbn zeta. rewrite Hlen.
  rewrite Nat.mod_small by done. rewrite Hi. f_equal.
  rewrite <- Hchoice. f_equal.
  rewrite length_delete by (by eexists). lia.
Qed.

Lemma range_map_elem_of {A} (choice : list nat) (m : gmap N A) k v :
  (k, v) ∈ range_map choice m ↔ m !! k = Some v.
Proof. by rewrite range_map_Permutation, elem_of_map_to_list. Qed.

Lemma GetAllServices_pure_services dberr w :
  services (exec (Repository.GetAllServices dberr) w) = services w
  ∧ trace (exec (Repository.GetAllServices dberr) w) = trace w
  ∧ log_output (exec (Repository.GetAllServices dberr) w) = log_output w.
Proof.
  unfold exec, Repository.GetAllServices. destruct dberr; [done|].
  by case (length _ =? 0)%nat.
Qed.

(** The effects of the range loop of a tick: one publish for each service
    of the snapshot that [shouldRun] accepts, in the order of the range. *)
Lemma tick_loop_trace (env : Service.TickEnv) (l : list ExternalService) w :
  let body := λ s : ExternalService,
    if negb (Service.shouldRun s (Service.tick_now env)) then mret ()
    else
      err ← Service.Schedule
               (Service.publish_err env (Service.job_of s))
               (Service.job_of s);
      match err with
      | Some e => log_Printf (LSchedulerScheduleFailed (Name s) e)
      | None => mret ()
      end in
  trace (exec (Service.for_each l body) w)
  = (trace w
     ++ ((λ s, EPublish (Service.job_of s))
           <$> filter (λ s, Service.shouldRun s (Service.tick_now env)) l))%list.
Proof.
  intros body. revert w. induction l as [|s l IH]; intros w.
  { cbn. by rewrite app_nil_r. }
  unfold exec in *. cbn [Service.for_each foldr].
  unfold mbind at 1. unfold M_bind.
  destruct (body s w) as [[] w1] eqn:Hbody.
  change (foldr _ _ l) with (Service.for_each l body). rewrite IH.
  rewrite filter_cons. subst body. cbn beta in Hbody.
  destruct (Service.shouldRun s (Service.tick_now env)) eqn:Hrun; cbn in Hbody.
  - rewrite decide_True by done. cbn [fmap list_fmap].
    assert (trace w1 = (trace w ++ [EPublish (Service.job_of s)])%list) as ->.
    { revert Hbody. unfold Service.Schedule, mbind, M_bind, emit, log_Printf,
        modify. destruct (Service.publish_err env _); cbn; by intros [= <-]. }
    by rewrite <- app_assoc.
  - rewrite decide_False by (by intros []). by injection Hbody as <-.
Qed.

Lemma scheduler_tick_fetched (env : Service.TickEnv) (w : World)
    (snapshot : gmap N ExternalService) :
  eval (Repository.GetAllServices (Service.fetch_dberr env)) w
  = (Some snapshot, None) →
  effects_of (Service.scheduler_tick env) w
  = (λ s, EPublish (Service.job_of s))
      <$> filter (λ s, Service.shouldRun s (Service.tick_now env))
            (range_map (Service.range_choice env) snapshot).*2.
Proof.
  intros Hfetch. apply effects_of_app.
  destruct (GetAllServices_pure_services (Service.fetch_dberr env) w)
    as (_ & Htrace & _).
  unfold exec, eval in *. unfold Service.scheduler_tick, mbind, M_bind.
  destruct (Repository.GetAllServices _ w) as [r w1]. cbn in Hfetch, Htrace.
  subst r. cbn [default].
  rewrite <- Htrace. apply (tick_loop_trace env).
Qed.

(** On a tick whose fetch succeeds, and as long as the interval of every
    service of the snapshot, in nanoseconds, fits a [time.Duration], a job
    is published for a service exactly when it is due. *)
Lemma scheduler_tick_publishes_due (env : Service.TickEnv) (w : World)
    (snapshot : gmap N ExternalService) :
  eval (Repository.GetAllServices (Service.fetch_dberr env)) w
  = (Some snapshot, None) →
  (∀ k s, snapshot !! k = Some s →
          Int64.in_range (Interval s * time.Second)) →
  ∀ job, EPublish job ∈ effects_of (Service.scheduler_tick env) w
         ↔ ∃ k s, snapshot !! k = Some s ∧ job = Service.job_of s
                  ∧ Spec.due s (Service.tick_now env).
Proof.
  intros Hfetch Hrange job. rewrite (scheduler_tick_fetched _ _ _ Hfetch).
  rewrite list_elem_of_fmap. split.
  - intros (s & [= ->] & Hin). apply list_elem_of_filter in Hin as [Hrun Hin].
    apply list_elem_of_fmap in Hin as ([k s'] & -> & Hin).
    apply range_map_elem_of in Hin. exists k, s'. cbn in *.
    split; [done|]. split; [done|].
    apply shouldRun_due; [by eapply Hrange | by apply Is_true_true].
  - intros (k & s & Hk & -> & Hdue). exists s. split; [done|].
    apply list_elem_of_filter. split.
    + apply Is_true_true, shouldRun_due; [by eapply Hrange | done].
    + apply list_elem_of_fmap. exists (k, s). split; [done|].
      by apply range_map_elem_of.
Qed.

(** Scenario 3 of the specification, computed: one job, for A. *)
Example scenario_3 :
  effects_of (Service.scheduler_tick Examples.tick20) Examples.worldAB
  = [EPublish (mkJob "A" "http://a/health" 5000000000 "GET")].
Proof. by vm_compute. Qed.

(** C5 at an interval beyond the range of [time.Duration]. A service with
    an interval of 10^10 seconds is accepted by the registration; checked at
    instant 0 it is not due five seconds later, yet [shouldRun] accepts it
    and the tick publishes its job: the product of the interval and
    [time.Second] has wrapped to a negative duration. *)
Lemma scheduler_tick_interval_overflow :
  (eval (Repository.RegisterService None (Some Examples.svcLong))
     Examples.empty_world).2 = None
  ∧ ¬ Spec.due Examples.svcLong (Service.tick_now Examples.tick5)
  ∧ Int64.mul (Interval Examples.svcLong) time.Second = -8446744073709551616
  ∧ Service.shouldRun Examples.svcLong (Service.tick_now Examples.tick5)
    = true
  ∧ effects_of (Service.scheduler_tick Examples.tick5) Examples.worldLong
    = [EPublish (Service.job_of Examples.svcLong)].
Proof.
  split; [by vm_compute|]. split; [|split; [|split]].
  - intros [Hnone|(last & [= <-] & Hlt)]; [discriminate|].
    cbn in Hlt. lia.
  - by vm_compute.
  - by vm_compute.
  - by vm_compute.
Qed.

(** ** C10: no registered service *)

(** C10. Whenever the table of services has no row, [GetAllServices]
    returns a nil map together with an error, which is "no services found"
    unless the query itself failed; a scheduler tick taken then logs the
    fetch failure with that error and publishes no job (it has no effect on
    the broker, the hub or the tables). *)
Theorem GetAllServices_empty_table (dberr : option error) (w : World) :
  services w = ∅ →
  (∃ e, eval (Repository.GetAllServices dberr) w = (None, Some e)
        ∧ (dberr = None → e = "no services found"))
  ∧ exec (Repository.GetAllServices dberr) w = w
  ∧ ∀ env : Service.TickEnv,
      Service.fetch_dberr env = dberr →
      effects_of (Service.scheduler_tick env) w = []
      ∧ (∃ e, log_output (exec (Service.scheduler_tick env) w)
              = (log_output w ++ [LSchedulerFetchFailed e])%list
              ∧ (dberr = None → e = "no services found"))
      ∧ services (exec (Service.scheduler_tick env) w) = services w.
Proof.
  intros Hempty.
  assert (Hrun : Repository.GetAllServices dberr w
                 = ((None, Some (default "no services found" dberr)), w)).
  { unfold Repository.GetAllServices. destruct dberr as [e|]; [done|].
    by rewrite Hempty, map_to_list_empty. }
  split; [|split].
  - exists (default "no services found" dberr). unfold eval. rewrite Hrun.
    split; [done|]. by intros ->.
  - unfold exec. by rewrite Hrun.
  - intros env <-. unfold effects_of, exec, Service.scheduler_tick, mbind,
      M_bind. rewrite Hrun. cbn. rewrite drop_all. split; [done|].
    split; [|done]. eexists. split; [done|]. by intros ->.
Qed.

Lemma GetAllServices_empty_table_witness :
  (∃ e, eval (Repository.GetAllServices None) Examples.empty_world
        = (None, Some e)
        ∧ ((None : option error) = None → e = "no services found"))
  ∧ exec (Repository.GetAllServices None) Examples.empty_world
    = Examples.empty_world
  ∧ ∀ env : Service.TickEnv,
      Service.fetch_dberr env = None →
      effects_of (Service.scheduler_tick env) Examples.empty_world = []
      ∧ (∃ e, log_output (exec (Service.scheduler_tick env)
                            Examples.empty_world)
              = (log_output Examples.empty_world
                 ++ [LSchedulerFetchFailed e])%list
              ∧ ((None : option error) = None → e = "no services found"))
      ∧ services (exec (Service.scheduler_tick env) Examples.empty_world)
        = services Examples.empty_world.
Proof.
  apply (GetAllServices_empty_table None Examples.empty_world). reflexivity.
Defined.

(** ** C8: registration *)


(** A valid registration reaches [Save]. *)
Lemma RegisterService_valid (dberr : option error) (s : ExternalService)
    (w : World) :
  Spec.valid_registration s = true →
  Repository.RegisterService dberr (Some s) w
  = (let '(s1, err) := (Repository.Save dberr s w).1 in (Some s1, err),
     (Repository.Save dberr s w).2).
Proof.
  unfold Spec.valid_registration, Repository.RegisterService.
  rewrite !andb_true_iff, !negb_true_iff, bool_decide_eq_true, !Z.ltb_lt.
  intros [[[[[Hname Hurl] Hmethod] Htimeout] Hinterval] Hthreshold].
  rewrite Hname, Hurl.
  assert ((HTTPMethod s =? "")%string = false
          ∧ negb (HTTPMethod s =? "GET")%string
            && negb (HTTPMethod s =? "POST")%string
            && negb (HTTPMethod s =? "PUT")%string
            && negb (HTTPMethod s =? "DELETE")%string
            && negb (HTTPMethod s =? "PATCH")%string = false) as [-> ->].
  { rewrite !elem_of_cons in Hmethod.
    destruct Hmethod as [->|[->|[->|[->|[->|Hnil]]]]]; try done.
    by apply elem_of_nil in Hnil. }
  destruct (Z.eqb_spec (TimeoutSeconds s) 0), (Z.ltb_spec (TimeoutSeconds s) 0);
    try lia.
  destruct (Z.eqb_spec (FailureThreshold s) 0),
    (Z.ltb_spec (FailureThreshold s) 0); try lia.
  destruct (Z.eqb_spec (Interval s) 0), (Z.ltb_spec (Interval s) 0); try lia.
  cbn [orb]. unfold mbind, M_bind.
  by destruct (Repository.Save dberr s w) as [[s1 err] w1].
Qed.


(** The handler on a body that binds to a valid service: the answer
    follows the result of [Save]. *)
Lemma RegisterService_handler_valid (dberr : option error)
    (s : ExternalService) (w : World) :
  Spec.valid_registration s = true →
  Service.RegisterService (Service.BodyService s) dberr w
  = let r := Repository.Save dberr s w in
    match r.1.2 with
    | Some e => ((500, Service.JError e), r.2)
    | None =>
        ((201, Service.JRegistered "service registered successfully" r.1.1),
         set_cache (λ c, <[ID r.1.1 := r.1.1]> c) r.2)
    end.
Proof.
  intros Hok.
  unfold Service.RegisterService, Service.ShouldBindJSON, mbind, M_bind.
  rewrite (RegisterService_valid dberr s w Hok).
  by destruct (Repository.Save dberr s w) as [[s1 [e|]] w1].
Qed.




(** ** C6: the broadcast of the hub *)

Section HubBroadcast.

Variable msg : Hub.Payload.

(** What the loop does to a client with an open channel: enqueue when the
    buffer has room, evict and close otherwise. *)
Lemma deliver_open h c ch :
  Hub.send h !! c = Some ch → Hub.closed ch = false →
  Hub.deliver msg h c
  = Some (if (length (Hub.buf ch) <? Hub.cap ch)%nat
          then Hub.mkState (Hub.clients h) (<[c := Hub.enqueue ch msg]> (Hub.send h))
          else Hub.mkState (Hub.clients h ∖ {[c]})
                 (<[c := Hub.mark_closed ch]> (Hub.send h))).
Proof.
  intros Hch Hopen. unfold Hub.deliver, Hub.try_send, Hub.close.
  rewrite Hch. cbn [mbind option_bind]. rewrite Hopen.
  by destruct (length (Hub.buf ch) <? Hub.cap ch)%nat.
Qed.

(** The range loop over a duplicate-free list of clients with open
    channels: it does not panic, leaves every other client alone, and
    treats each client of the list by the state of its own buffer. *)
Lemma broadcast_loop (l : list positive) :
  NoDup l →
  ∀ h,
    (∀ c, c ∈ l → ∃ ch, Hub.send h !! c = Some ch ∧ Hub.closed ch = false) →
    ∃ h1,
      foldl (λ acc c, h0 ← acc; Hub.deliver msg h0 c) (Some h) l = Some h1
      ∧ (∀ c, c ∉ l →
              Hub.send h1 !! c = Hub.send h !! c
              ∧ (c ∈ Hub.clients h1 ↔ c ∈ Hub.clients h))
      ∧ (∀ c ch, c ∈ l → Hub.send h !! c = Some ch →
                 if (length (Hub.buf ch) <? Hub.cap ch)%nat
                 then Hub.send h1 !! c = Some (Hub.enqueue ch msg)
                      ∧ (c ∈ Hub.clients h1 ↔ c ∈ Hub.clients h)
                 else Hub.send h1 !! c = Some (Hub.mark_closed ch)
                      ∧ c ∉ Hub.clients h1).
Proof.
  induction 1 as [|c0 l Hc0 Hnodup IH]; intros h Hopen.
  { exists h. split; [done|]. split; [done|].
    intros c ch Hc. by apply elem_of_nil in Hc. }
  destruct (Hopen c0) as (ch0 & Hch0 & Hopen0); [left|].
  cbn [foldl]. cbn [mbind option_bind].
  rewrite (deliver_open h c0 ch0 Hch0 Hopen0).
  set (h0 := if (length (Hub.buf ch0) <? Hub.cap ch0)%nat then _ else _).
  assert (Hother : ∀ c, c ≠ c0 →
            Hub.send h0 !! c = Hub.send h !! c
            ∧ (c ∈ Hub.clients h0 ↔ c ∈ Hub.clients h)).
  { intros c Hne. subst h0.
    destruct (length (Hub.buf ch0) <? Hub.cap ch0)%nat; cbn;
      rewrite lookup_insert_ne by done; split; try done.
    rewrite elem_of_difference, elem_of_singleton. tauto. }
  destruct (IH h0) as (h1 & Hrun & Hout & Hin).
  { intros c Hc. destruct (Hother c) as [-> _]; [by intros ->|].
    apply Hopen. by right. }
  exists h1. split; [done|]. split.
  - intros c Hc. apply not_elem_of_cons in Hc as [Hne Hc].
    destruct (Hout c Hc) as [-> ->]. by apply Hother.
  - intros c ch Hc Hch. apply elem_of_cons in Hc as [->|Hc].
    + rewrite Hch0 in Hch. injection Hch as <-.
      destruct (Hout c0 Hc0) as [Hsend Hmem]. rewrite Hsend.
      subst h0. destruct (length (Hub.buf ch0) <? Hub.cap ch0)%nat; cbn in *;
        rewrite lookup_insert_eq; split; try done.
      rewrite Hmem, elem_of_difference, elem_of_singleton. tauto.
    + assert (c ≠ c0) as Hne by (by intros ->).
      destruct (Hother c Hne) as [Hsend Hmem].
      specialize (Hin c ch Hc). rewrite Hsend in Hin. specialize (Hin Hch).
      destruct (length (Hub.buf ch) <? Hub.cap ch)%nat; [|done].
      by rewrite <- Hmem.
Qed.

(** One broadcast, for the whole hub. *)
Lemma broadcast_clients h :
  Hub.wf h →
  ∃ h1,
    Hub.broadcast msg h = Some h1
    ∧ Hub.wf h1
    ∧ (∀ c, c ∉ Hub.clients h →
            Hub.send h1 !! c = Hub.send h !! c ∧ c ∉ Hub.clients h1)
    ∧ (∀ c ch, c ∈ Hub.clients h → Hub.send h !! c = Some ch →
         ((length (Hub.buf ch) < Hub.cap ch)%nat →
          c ∈ Hub.clients h1 ∧ Hub.send h1 !! c = Some (Hub.enqueue ch msg))
         ∧ ((Hub.cap ch ≤ length (Hub.buf ch))%nat →
            (c ∉ Hub.clients h1) ∧ Hub.send h1 !! c = Some (Hub.mark_closed ch))).
Proof.
  intros Hwf. unfold Hub.broadcast.
  destruct (broadcast_loop (elements (Hub.clients h))
              (NoDup_elements _) h) as (h1 & Hrun & Hout & Hin).
  { intros c Hc. apply Hwf. by apply elem_of_elements. }
  exists h1. split; [done|].
  assert (Hcase : ∀ c ch, c ∈ Hub.clients h → Hub.send h !! c = Some ch →
    ((length (Hub.buf ch) < Hub.cap ch)%nat →
     c ∈ Hub.clients h1 ∧ Hub.send h1 !! c = Some (Hub.enqueue ch msg))
    ∧ ((Hub.cap ch ≤ length (Hub.buf ch))%nat →
       (c ∉ Hub.clients h1) ∧ Hub.send h1 !! c = Some (Hub.mark_closed ch))).
  { intros c ch Hc Hch.
    assert (c ∈ elements (Hub.clients h)) as Hel by (by apply elem_of_elements).
    specialize (Hin c ch Hel Hch).
    destruct (Nat.ltb_spec (length (Hub.buf ch)) (Hub.cap ch)).
    - destruct Hin as [Hsend Hmem]. split; [|lia].
      intros _. by rewrite Hmem.
    - destruct Hin as [Hsend Hmem]. split; [lia | done]. }
  assert (Hnew : ∀ c, c ∉ Hub.clients h →
    Hub.send h1 !! c = Hub.send h !! c ∧ c ∉ Hub.clients h1).
  { intros c Hc.
    assert (c ∉ elements (Hub.clients h)) as Hel by (by rewrite elem_of_elements).
    destruct (Hout c Hel) as [Hsend Hmem]. split; [done | by rewrite Hmem]. }
  split; [|by split].
  intros c Hc1.
  destruct (decide (c ∈ Hub.clients h)) as [Hc|Hc];
    [|by destruct (Hnew c Hc)].
  destruct (Hwf c Hc) as (ch & Hch & Hopen).
  destruct (Hcase c ch Hc Hch) as [Hroom Hfull].
  destruct (Nat.ltb_spec (length (Hub.buf ch)) (Hub.cap ch)) as [Hlt|Hge].
  - destruct (Hroom Hlt) as [_ Hsend]. by exists (Hub.enqueue ch msg).
  - by destruct (Hfull Hge).
Qed.

End HubBroadcast.

Lemma Run_cons h i inputs :
  Hub.Run h (i :: inputs) = h1 ← Hub.step h i; Hub.Run h1 inputs.
Proof.
  unfold Hub.Run. cbn [foldl mbind option_bind].
  destruct (Hub.step h i) as [h1|]; [done|].
  by induction inputs.
Qed.

(** A client that does not drain keeps every frame, in the order of the
    broadcasts, as long as its buffer has room. *)
Lemma Run_broadcasts_buffered (msgs : list Hub.Payload) :
  ∀ h c ch,
    Hub.wf h → c ∈ Hub.clients h → Hub.send h !! c = Some ch →
    (length (Hub.buf ch) + length msgs ≤ Hub.cap ch)%nat →
    ∃ h1,
      Hub.Run h (Hub.Broadcast <$> msgs) = Some h1
      ∧ Hub.wf h1 ∧ c ∈ Hub.clients h1
      ∧ Hub.send h1 !! c
        = Some (Hub.mkChan (Hub.buf ch ++ msgs)%list (Hub.cap ch)
                  (Hub.closed ch)).
Proof.
  induction msgs as [|m msgs IH]; intros h c ch Hwf Hc Hch Hroom.
  { exists h. rewrite app_nil_r. by destruct ch. }
  cbn [fmap list_fmap]. rewrite Run_cons. cbn [Hub.step].
  destruct (broadcast_clients m h Hwf) as (h0 & -> & Hwf0 & _ & Hin).
  cbn [mbind option_bind].
  destruct (Hin c ch Hc Hch) as [Hdeliver _].
  destruct Hdeliver as [Hc0 Hch0]; [cbn in Hroom; lia|].
  destruct (IH h0 c (Hub.enqueue ch m) Hwf0 Hc0 Hch0) as (h1 & Hrun & ?).
  { cbn in *. rewrite length_app. cbn. lia. }
  exists h1. split; [done|]. cbn in *. by rewrite <- app_assoc in *.
Qed.

(** The hub never panics and keeps its invariant, whatever happens around
    it; in particular every state it reaches from [NewHub] is well formed. *)
Lemma handle_wf (h : Hub.State) (e : Hub.Event) :
  Hub.wf h → ∃ h1, Hub.handle h e = Some h1 ∧ Hub.wf h1.
Proof.
  intros Hwf. destruct e as [c|c|msg|c]; cbn [Hub.handle].
  - unfold Hub.HandleWebSocket. cbn [Hub.step]. eexists. split; [done|].
    intros c1 Hc1. cbn in *. destruct (decide (c1 = c)) as [->|Hne].
    + exists (Hub.make_chan 256). by rewrite lookup_insert_eq.
    + rewrite lookup_insert_ne by done. apply Hwf.
      apply elem_of_union in Hc1 as [Hc1|Hc1]; [|done].
      by apply elem_of_singleton in Hc1.
  - cbn [Hub.step]. destruct (decide (c ∈ Hub.clients h)) as [Hc|Hc];
      [|by exists h].
    destruct (Hwf c Hc) as (ch & Hch & Hopen).
    rewrite Hch. unfold Hub.close. cbn [mbind option_bind]. rewrite Hopen.
    eexists. split; [done|].
    intros c1 Hc1. cbn in *.
    apply elem_of_difference in Hc1 as [Hc1 Hne].
    rewrite elem_of_singleton in Hne. rewrite lookup_insert_ne by done.
    by apply Hwf.
  - destruct (broadcast_clients msg h Hwf) as (h1 & Hrun & Hwf1 & _).
    by exists h1.
  - eexists. split; [done|]. unfold Hub.drain.
    destruct (Hub.send h !! c) as [ch|] eqn:Hch; [|done].
    unfold Hub.recv. destruct (Hub.buf ch) as [|m rest]; [done|].
    intros c1 Hc1. cbn in *. destruct (decide (c1 = c)) as [->|Hne].
    + rewrite lookup_insert_eq. destruct (Hwf c Hc1) as (ch' & Hch' & Hopen).
      rewrite Hch in Hch'. injection Hch' as <-. by eexists.
    + rewrite lookup_insert_ne by done. by apply Hwf.
Qed.

Lemma run_events_wf (es : list Hub.Event) :
  ∀ h, Hub.wf h → ∃ h1, Hub.run_events h es = Some h1 ∧ Hub.wf h1.
Proof.
  unfold Hub.run_events.
  induction es as [|e es IH]; intros h Hwf; [by exists h|].
  cbn [foldl mbind option_bind].
  destruct (handle_wf h e Hwf) as (h0 & -> & Hwf0). by apply IH.
Qed.

Lemma NewHub_wf : Hub.wf Hub.NewHub.
Proof. intros c Hc. by apply elem_of_empty in Hc. Qed.

(** C6. When the hub processes one broadcast over its subscriber set (every
    registered subscriber has an open channel): the loop completes; every
    subscriber whose buffer has free space stays registered and has the
    payload appended at the tail of its buffer, after the payloads of the
    earlier broadcasts; every subscriber whose buffer is full is removed
    from the set and its channel is closed; what happens to a subscriber
    depends on its own buffer only. A buffer made by [HandleWebSocket] has
    capacity 256, and for a subscriber of capacity [C] that does not drain,
    [C] broadcasts are buffered in order and broadcast number [C + 1]
    evicts it. *)
Theorem hub_broadcast_fanout (msg : Hub.Payload) (h : Hub.State) :
  Hub.wf h →
  (∃ h1,
     Hub.step h (Hub.Broadcast msg) = Some h1
     ∧ Hub.wf h1
     ∧ ∀ c ch, c ∈ Hub.clients h → Hub.send h !! c = Some ch →
         ((length (Hub.buf ch) < Hub.cap ch)%nat →
          c ∈ Hub.clients h1
          ∧ Hub.send h1 !! c
            = Some (Hub.mkChan (Hub.buf ch ++ [msg])%list (Hub.cap ch) false))
         ∧ ((Hub.cap ch ≤ length (Hub.buf ch))%nat →
            (c ∉ Hub.clients h1)
            ∧ Hub.send h1 !! c
              = Some (Hub.mkChan (Hub.buf ch) (Hub.cap ch) true)))
  ∧ (∀ c (C : nat) (msgs : list Hub.Payload),
       c ∈ Hub.clients h → Hub.send h !! c = Some (Hub.make_chan C) →
       length msgs = C →
       ∃ h1 h2,
         Hub.Run h (Hub.Broadcast <$> msgs) = Some h1
         ∧ c ∈ Hub.clients h1
         ∧ Hub.send h1 !! c = Some (Hub.mkChan msgs C false)
         ∧ Hub.step h1 (Hub.Broadcast msg) = Some h2
         ∧ (c ∉ Hub.clients h2)
         ∧ Hub.send h2 !! c = Some (Hub.mkChan msgs C true))
  ∧ (∀ c, ∃ h1,
       Hub.HandleWebSocket c h = Some h1
       ∧ Hub.wf h1 ∧ c ∈ Hub.clients h1
       ∧ Hub.send h1 !! c = Some (Hub.make_chan 256)).
Proof.
  intros Hwf. split; [|split].
  - cbn [Hub.step].
    destruct (broadcast_clients msg h Hwf) as (h1 & Hrun & Hwf1 & _ & Hin).
    exists h1. split; [done|]. split; [done|].
    intros c ch Hc Hch. destruct (Hwf c Hc) as (ch' & Hch' & Hopen).
    rewrite Hch in Hch'. injection Hch' as <-.
    destruct (Hin c ch Hc Hch) as [Hroom Hfull].
    unfold Hub.enqueue, Hub.mark_closed in *. rewrite Hopen in Hroom.
    by split.
  - intros c C msgs Hc Hch Hlen.
    destruct (Run_broadcasts_buffered msgs h c (Hub.make_chan C) Hwf Hc Hch)
      as (h1 & Hrun & Hwf1 & Hc1 & Hch1); [cbn; lia|].
    cbn in Hch1.
    destruct (broadcast_clients msg h1 Hwf1) as (h2 & Hrun2 & _ & _ & Hin).
    destruct (Hin c _ Hc1 Hch1) as [_ Hfull].
    destruct Hfull as [Hc2 Hch2]; [cbn; lia|].
    by exists h1, h2.
  - intros c. unfold Hub.HandleWebSocket. cbn [Hub.step]. eexists.
    split; [done|]. cbn. split; [|split].
    + intros c' Hc'. cbn in *. destruct (decide (c' = c)) as [->|Hne].
      * exists (Hub.make_chan 256). by rewrite lookup_insert_eq.
      * rewrite lookup_insert_ne by done. apply Hwf.
        apply elem_of_union in Hc' as [Hc'|Hc']; [|done].
        by apply elem_of_singleton in Hc'.
    + apply elem_of_union_l. by apply elem_of_singleton.
    + by rewrite lookup_insert_eq.
Qed.

Lemma hub2_wf : Hub.wf Examples.hub2.
Proof.
  intros c Hc. unfold Examples.hub2 in *. cbn in Hc.
  apply elem_of_union in Hc as [Hc|Hc]; apply elem_of_singleton in Hc as ->.
  - by eexists.
  - by eexists.
Qed.

Lemma hub_broadcast_fanout_witness :
  ∃ h1,
    Hub.step Examples.hub2 (Hub.Broadcast (Examples.ev 3)) = Some h1
    ∧ Hub.wf h1
    ∧ ∀ c ch, c ∈ Hub.clients Examples.hub2 →
        Hub.send Examples.hub2 !! c = Some ch →
        ((length (Hub.buf ch) < Hub.cap ch)%nat →
         c ∈ Hub.clients h1
         ∧ Hub.send h1 !! c
           = Some (Hub.mkChan (Hub.buf ch ++ [Examples.ev 3])%list
                     (Hub.cap ch) false))
        ∧ ((Hub.cap ch ≤ length (Hub.buf ch))%nat →
           (c ∉ Hub.clients h1)
           ∧ Hub.send h1 !! c
             = Some (Hub.mkChan (Hub.buf ch) (Hub.cap ch) true)).
Proof.
  exact (proj1 (hub_broadcast_fanout (Examples.ev 3) Examples.hub2 hub2_wf)).
Defined.

(** The broadcast of the example, computed: subscriber 1 receives the
    frame, subscriber 2 is evicted and its channel closed. *)
Example hub2_broadcast :
  Hub.step Examples.hub2 (Hub.Broadcast (Examples.ev 3))
  = Some (Hub.mkState {[ 1%positive ]}
            {[ 1%positive := Hub.mkChan [Examples.ev 3] 2 false;
               2%positive := Hub.mkChan [Examples.ev 1; Examples.ev 2] 2
                               true ]}).
Proof. by vm_compute. Qed.

(** Scenarios 1 and 2 of the specification on the state machine: three
    failures take service A from UP to DOWN with counter 3, a success
    takes it back to UP with counter 0. *)
Example scenario_1_2 :
  let down := apply_outcomes Examples.svcA [(1, false); (2, false); (3, false)] in
  Status down = "DOWN" ∧ ConsecutiveFailures down = 3
  ∧ Status (apply_outcomes down [(4, true)]) = "UP"
  ∧ ConsecutiveFailures (apply_outcomes down [(4, true)]) = 0.
Proof. by vm_compute. Qed.

(** The delivery of the example, computed: the log entry, the state update
    and the ack, with no broadcast since service A stays UP after one
    failure. *)
Example envA_fail_effects :
  effects_of (Service.handle_delivery Examples.envA_fail) Examples.worldA
  = [ELogAppend (mkServiceCheckLog 0%N 1%N "DOWN" 0 12 "connection refused" 7);
     EUpdateState 1%N false; EAck].
Proof. by vm_compute. Qed.

(** * Further properties of the code *)

(** ** The state machine and UpdateServiceState *)

Lemma apply_outcome_checked now s success :
  LastCheckedAt (Repository.apply_outcome now s success) = Some now.
Proof. destruct success; [done | apply RecordFailure_checked]. Qed.

Lemma apply_outcome_config now s success :
  let s1 := Repository.apply_outcome now s success in
  Name s1 = Name s ∧ URL s1 = URL s ∧ HTTPMethod s1 = HTTPMethod s
  ∧ Protocol s1 = Protocol s ∧ Interval s1 = Interval s
  ∧ TimeoutSeconds s1 = TimeoutSeconds s
  ∧ FailureThreshold s1 = FailureThreshold s.
Proof.
  destruct success; cbn; [done|]. unfold RecordFailure.
  by case (ShouldMarkDown _).
Qed.

(** On a struct whose key is the key of a row, [Save] is an update: the
    struct is stored and returned as it is. *)
Lemma Save_update (s : ExternalService) (w : World) :
  ID s ≠ 0%N → is_Some (services w !! ID s) →
  Repository.Save None s w
  = ((s, None), set_services (λ db, <[ID s := s]> db) w).
Proof.
  intros Hid [row Hrow]. unfold Repository.Save.
  destruct (N.eqb_spec (ID s) 0); [done|]. by rewrite Hrow.
Qed.

(** The row that a successful [UpdateServiceState] stores for a service
    that has a row under its (non-zero) id. *)
Lemma UpdateServiceState_saved_row (now : time.Time) (s : ExternalService)
    (success : bool) (w : World) :
  ID s ≠ 0%N → is_Some (services w !! ID s) →
  let r := (eval (Repository.UpdateServiceState None now s success) w).1 in
  services (exec (Repository.UpdateServiceState None now s success) w)
  !! ID s = Some r
  ∧ LastCheckedAt r = Some now ∧ Interval r = Interval s.
Proof.
  intros Hid Hrow. unfold eval, exec. rewrite UpdateServiceState_run.
  pose proof (apply_outcome_id now s success) as Hid1.
  cbn zeta. rewrite Save_update by (by rewrite Hid1).
  cbn. rewrite Hid1, lookup_insert_eq.
  split; [done|]. split; [apply apply_outcome_checked|].
  by destruct (apply_outcome_config now s success) as (_ & _ & _ & _ & ? & _).
Qed.

(** X1. [UpdateServiceState] on a service with a non-zero id writes exactly
    one row, the one under that id: every other row of the table, the whole
    probe log and the cache are as before, and the struct keeps its id, name
    and url, with the check time set to the instant of the call. When the
    service is stored (there is a row under its id) the struct also keeps
    its method, protocol, interval, timeout and threshold; when it is not,
    a [Save] that succeeds inserts it with the defaults of the columns
    filled in. When [Save] fails nothing at all is written. *)
Theorem UpdateServiceState_frame (dberr : option error) (now : time.Time)
    (s : ExternalService) (success : bool) (w : World) :
  ID s ≠ 0%N →
  let r := (eval (Repository.UpdateServiceState dberr now s success) w).1 in
  let w1 := exec (Repository.UpdateServiceState dberr now s success) w in
  ID r = ID s ∧ Name r = Name s ∧ URL r = URL s
  ∧ LastCheckedAt r = Some now
  ∧ (is_Some (services w !! ID s) →
     HTTPMethod r = HTTPMethod s ∧ Protocol r = Protocol s
     ∧ Interval r = Interval s ∧ TimeoutSeconds r = TimeoutSeconds s
     ∧ FailureThreshold r = FailureThreshold s)
  ∧ (services w !! ID s = None → dberr = None →
     r = Repository.with_defaults (Repository.apply_outcome now s success))
  ∧ check_logs w1 = check_logs w
  ∧ cache w1 = cache w
  ∧ (∀ k, k ≠ ID s → services w1 !! k = services w !! k)
  ∧ services w1 !! ID s
    = (if dberr is Some _ then services w !! ID s else Some r).
Proof.
  intros Hid. unfold eval, exec. rewrite UpdateServiceState_run.
  pose proof (apply_outcome_id now s success) as Hid1.
  pose proof (apply_outcome_checked now s success) as Hchk.
  pose proof (apply_outcome_config now s success) as Hcfg. cbn zeta in Hcfg.
  destruct Hcfg as (? & ? & ? & ? & ? & ? & ?).
  cbn zeta. cbn [fst snd].
  set (s1 := Repository.apply_outcome now s success) in *.
  destruct dberr as [e|]; [by cbn|].
  unfold Repository.Save. rewrite Hid1.
  destruct (N.eqb_spec (ID s) 0); [done|].
  cbn [services set_trace].
  destruct (services w !! ID s) as [row|] eqn:Hrow; cbn.
  - rewrite Hid1. repeat split; try done.
    + intros k Hk. by rewrite lookup_insert_ne.
    + by rewrite lookup_insert_eq.
  - rewrite Hid1. repeat split; try done.
    + intros k Hk. by rewrite lookup_insert_ne.
    + by rewrite lookup_insert_eq.
Qed.

Lemma UpdateServiceState_frame_witness :
  services (exec (Repository.UpdateServiceState None 7 Examples.svcA false)
              Examples.worldA) !! 2%N
  = services Examples.worldA !! 2%N.
Proof.
  assert (H : ID Examples.svcA ≠ 0%N) by done.
  pose proof (UpdateServiceState_frame None 7 Examples.svcA false
                Examples.worldA H) as Hframe.
  cbn zeta in Hframe.
  destruct Hframe as (_ & _ & _ & _ & _ & _ & _ & _ & Hrows & _).
  by apply Hrows.
Defined.

Lemma fail_times_S now k s :
  fail_times now (S k) s = RecordFailure now (fail_times now k s).
Proof. reflexivity. Qed.

(** X2. From a service that is UP with no failure counted and a threshold
    [T >= 1], [k] failures in a row leave the counter at [k] and the status
    UP as long as [k < T], DOWN from [k = T] on: it takes exactly [T]
    consecutive failures to mark the service DOWN (for every [k] up to the
    largest [int64]). *)
Theorem failures_reach_threshold (now : time.Time) (s : ExternalService)
    (k : nat) :
  Status s = "UP" →
  ConsecutiveFailures s = 0 →
  1 <= FailureThreshold s →
  Z.of_nat k <= Int64.max_int →
  ConsecutiveFailures (fail_times now k s) = Z.of_nat k
  ∧ Status (fail_times now k s)
    = (if Z.of_nat k <? FailureThreshold s then "UP" else "DOWN")
  ∧ FailureThreshold (fail_times now k s) = FailureThreshold s.
Proof.
  intros Hup H0 HT. induction k as [|k IH]; intros Hk.
  { change (fail_times now 0 s) with s. change (Z.of_nat 0) with 0.
    rewrite H0, Hup. split; [done|]. split; [|done].
    destruct (Z.ltb_spec 0 (FailureThreshold s)); [done | lia]. }
  destruct IH as (Hn & Hst & Hthr); [lia|].
  rewrite fail_times_S, RecordFailure_counter, RecordFailure_status,
    RecordFailure_threshold, Hn, Hst, Hthr.
  rewrite add_one_no_overflow
    by (unfold Int64.min_int, Int64.max_int in *; lia).
  replace (Z.of_nat (S k)) with (Z.of_nat k + 1) by lia.
  split; [done|]. split; [|done].
  destruct (Z.leb_spec (FailureThreshold s) (Z.of_nat k + 1)),
    (Z.ltb_spec (Z.of_nat k + 1) (FailureThreshold s)),
    (Z.ltb_spec (Z.of_nat k) (FailureThreshold s)); try done; lia.
Qed.

Lemma failures_reach_threshold_witness :
  ConsecutiveFailures (fail_times 7 3 Examples.svcA) = Z.of_nat 3
  ∧ Status (fail_times 7 3 Examples.svcA)
    = (if Z.of_nat 3 <? FailureThreshold Examples.svcA then "UP" else "DOWN")
  ∧ FailureThreshold (fail_times 7 3 Examples.svcA)
    = FailureThreshold Examples.svcA.
Proof.
  apply (failures_reach_threshold 7 Examples.svcA 3).
  - reflexivity.
  - reflexivity.
  - cbn; lia.
  - unfold Int64.max_int; cbn; lia.
Defined.

(** X3. When [UpdateServiceState] reports a change. After a success: a
    change to "UP", if and only if the status was not "UP" before. After a
    failure: a change to "DOWN", if and only if the incremented counter
    reaches the threshold and the status was not "DOWN" before. One more
    change comes from the defaults of the columns: a failure below the
    threshold of a struct with an empty status, which [Save] inserts as a
    new row, is reported as a change from "" to "up". When [Save] fails (the
    statement fails, or the key drawn for a new row is in use) no change is
    reported, whatever happened to the struct. [From] is always the status
    before. *)
Theorem UpdateServiceState_change_cases (dberr : option error)
    (now : time.Time) (s : ExternalService) (success : bool) (w : World) :
  let new_row :=
    (ID s =? 0)%N || (if services w !! ID s is Some _ then false else true) in
  let key_in_use :=
    (ID s =? 0)%N
    && (if services w !! N.succ (services_seq w) is Some _ then true
        else false) in
  let reached :=
    FailureThreshold s <=? Int64.add (ConsecutiveFailures s) 1 in
  (eval (Repository.UpdateServiceState dberr now s success) w).2
  = match dberr with
    | Some e => (None, Some e)
    | None =>
        if key_in_use then (None, Some Repository.duplicate_key)
        else
          (if success then
             if (Status s =? "UP")%string then None
             else Some (mkStateChange (Status s) "UP")
           else
             if reached && negb (Status s =? "DOWN")%string
             then Some (mkStateChange (Status s) "DOWN")
             else if negb reached && (Status s =? "")%string && new_row
             then Some (mkStateChange "" "up")
             else None,
           None)
    end.
Proof.
  cbn zeta. unfold eval. rewrite UpdateServiceState_run. cbn zeta.
  cbn [fst snd].
  destruct dberr as [e|]; [done|].
  assert (Hst : Status (Repository.apply_outcome now s success)
                = if success then "UP"
                  else if FailureThreshold s
                          <=? Int64.add (ConsecutiveFailures s) 1
                       then "DOWN" else Status s).
  { destruct success; [done | apply RecordFailure_status]. }
  unfold Repository.Save. rewrite apply_outcome_id.
  cbn [services services_seq set_trace].
  destruct (ID s =? 0)%N; cbn [orb andb].
  - destruct (services w !! N.succ _); [done|]. cbn. rewrite Hst.
    destruct success; cbn.
    + by destruct (String.eqb_spec (Status s) "UP").
    + destruct (_ <=? _); cbn.
      * by destruct (String.eqb_spec (Status s) "DOWN").
      * destruct (String.eqb_spec (Status s) "") as [->|]; [done|].
        by rewrite String.eqb_refl.
  - destruct (services w !! ID s); cbn; rewrite Hst.
    + destruct success; cbn.
      * by destruct (String.eqb_spec (Status s) "UP").
      * destruct (_ <=? _); cbn.
        -- by destruct (String.eqb_spec (Status s) "DOWN").
        -- rewrite String.eqb_refl. by rewrite andb_false_r.
    + destruct success; cbn.
      * by destruct (String.eqb_spec (Status s) "UP").
      * destruct (_ <=? _); cbn.
        -- by destruct (String.eqb_spec (Status s) "DOWN").
        -- destruct (String.eqb_spec (Status s) "") as [->|]; [done|].
           by rewrite String.eqb_refl.
Qed.

(** ** The worker, delivery by delivery *)

Lemma completes_intro env w job svc :
  Service.unmarshal env = (job, None) →
  eval (Repository.GetServiceByName (Service.lookup_dberr env)
          (ServiceName job)) w = (Some svc, None) →
  Service.new_request_err env = None →
  completes env w.
Proof. intros Hjob Hsvc Hreq. exists svc. by rewrite Hjob. Qed.

(** The probe log after a delivery processed to completion. *)
Lemma handle_delivery_completed_logs env w job svc :
  Service.unmarshal env = (job, None) →
  eval (Repository.GetServiceByName (Service.lookup_dberr env)
          (ServiceName job)) w = (Some svc, None) →
  Service.new_request_err env = None →
  let o := Service.probe_outcome (Service.do_result env) in
  check_logs (exec (Service.handle_delivery env) w)
  = match Service.log_dberr env with
    | Some _ => check_logs w
    | None =>
        (check_logs w
         ++ [mkServiceCheckLog (N.of_nat (S (length (check_logs w))))
               (ID svc) o.1.1.1 o.1.1.2 (Service.latencyMs env) o.1.2
               (Service.log_now env)])%list
    end.
Proof.
  intros Hjob Hsvc Hreq o. unfold exec.
  unfold Service.handle_delivery. rewrite Hjob.
  unfold mbind, M_bind. rewrite GetServiceByName_pure, Hsvc, Hreq.
  subst o. destruct (Service.probe_outcome _) as [[[status code] msg] success].
  cbn [fst snd].
  destruct (Repository.SaveServiceCheckLog _ _ _ _ _ _ _ w) as [lerr wl]
    eqn:Hlog.
  assert (Hwl : check_logs wl
                = match Service.log_dberr env with
                  | Some _ => check_logs w
                  | None =>
                      (check_logs w
                       ++ [mkServiceCheckLog
                             (N.of_nat (S (length (check_logs w))))
                             (ID svc) status code (Service.latencyMs env) msg
                             (Service.log_now env)])%list
                  end).
  { revert Hlog. unfold Repository.SaveServiceCheckLog, mbind, M_bind, emit,
      modify. destruct (Service.log_dberr env); cbn; by intros [= _ <-]. }
  rewrite <- Hwl. clear Hwl Hlog.
  destruct (match lerr with
            | Some e => log_Printf (LWorkerLogSaveFailed (Name svc) e)
            | None => mret ()
            end wl) as [[] wl1] eqn:Hstep.
  assert (Hwl1 : check_logs wl1 = check_logs wl).
  { destruct lerr; by injection Hstep as <-. }
  rewrite <- Hwl1. clear Hwl1 Hstep.
  destruct (UpdateServiceState_world (Service.update_dberr env)
              (Service.update_now env) svc success wl1) as (_ & Hlogs & _).
  unfold exec in Hlogs.
  destruct (Repository.UpdateServiceState _ _ _ _ wl1)
    as [[svc1 [change uerr]] wu].
  cbn [snd] in Hlogs. rewrite <- Hlogs.
  unfold Service.LogStateTransition, Service.BroadcastStateChange, mbind,
    M_bind, mret, M_ret, emit, log_Printf, modify.
  by destruct uerr, change.
Qed.

(** X4. Every delivery is answered exactly once. A delivery that is
    processed to completion is acked, as the last thing done for it, and
    never nacked; any other delivery (the payload does not decode, the
    service does not resolve, the request does not build) is nacked, and
    nothing else is done for it: no log entry, no state update, no
    broadcast, no change to the tables. *)
Theorem handle_delivery_answers_once (env : Service.WorkerEnv) (w : World) :
  let fx := effects_of (Service.handle_delivery env) w in
  let w1 := exec (Service.handle_delivery env) w in
  (completes env w
   ∧ last fx = Some EAck
   ∧ length (filter is_ack fx) = 1%nat
   ∧ length (filter is_nack fx) = 0%nat)
  ∨ (¬ completes env w
     ∧ fx = [ENack]
     ∧ services w1 = services w
     ∧ check_logs w1 = check_logs w).
Proof.
  cbn zeta.
  destruct (handle_delivery_cases env w)
    as [(Hrej & Hdb & Hlogs)|(job & svc & k & Hjob & Hsvc & Hk & Hreq)].
  - right. split; [|by rewrite (effects_of_app _ _ _ Hrej)].
    intros (svc & Herr & Hsvc & Hreq).
    destruct (Service.unmarshal env) as [job err] eqn:Hjob.
    cbn in Herr, Hsvc. subst err.
    destruct (handle_delivery_completed env w job svc Hjob Hsvc Hreq)
      as [Htrace _].
    rewrite Hrej in Htrace. apply app_inv_head in Htrace. discriminate.
  - left. split; [by eapply completes_intro|].
    destruct (handle_delivery_completed env w job svc Hjob Hsvc Hreq)
      as [Htrace _].
    rewrite (effects_of_app _ _ _ Htrace). by destruct (_.2.1).
Qed.

(** One answer per delivery: an ack or a nack. *)
Lemma handle_delivery_answer_count (env : Service.WorkerEnv) (w : World) :
  let fx := effects_of (Service.handle_delivery env) w in
  (length (filter is_ack fx) + length (filter is_nack fx))%nat = 1%nat.
Proof.
  cbn zeta.
  destruct (handle_delivery_cases env w)
    as [(Hrej & _)|(job & svc & k & Hjob & Hsvc & Hk & Hreq)].
  - by rewrite (effects_of_app _ _ _ Hrej).
  - destruct (handle_delivery_completed env w job svc Hjob Hsvc Hreq)
      as [Htrace _].
    rewrite (effects_of_app _ _ _ Htrace). by destruct (_.2.1).
Qed.

(** X5. The loop of [StartWorker] answers every delivery it receives: over
    any list of deliveries, the number of acks and nacks together is the
    number of deliveries. *)
Theorem StartWorker_answers_all (msgs : list Service.WorkerEnv) (w : World) :
  let fx := effects_of (Service.StartWorker msgs) w in
  (length (filter is_ack fx) + length (filter is_nack fx))%nat
  = length msgs.
Proof.
  cbn zeta. revert w. induction msgs as [|env rest IH]; intros w.
  { unfold effects_of. cbn. by rewrite drop_all. }
  rewrite StartWorker_effects, !filter_app, !length_app.
  specialize (IH (exec (Service.handle_delivery env) w)).
  pose proof (handle_delivery_answer_count env w) as Hone.
  cbn zeta in Hone. cbn [length]. lia.
Qed.

(** X6. The worker acks a delivery whose state update fails. For a
    delivery processed to completion at which [Save] fails in
    [UpdateServiceState], the effects are the log append, the call of the
    state update and the ack; nothing is broadcast and the table of
    services is as before, so a transition that the probe would have caused
    is neither stored nor announced, and the message is not redelivered. *)
Theorem worker_acks_failed_update (env : Service.WorkerEnv) (w : World)
    (job : HealthCheckJob) (svc : ExternalService) (e : error) :
  Service.unmarshal env = (job, None) →
  eval (Repository.GetServiceByName (Service.lookup_dberr env)
          (ServiceName job)) w = (Some svc, None) →
  Service.new_request_err env = None →
  Service.update_dberr env = Some e →
  let o := Service.probe_outcome (Service.do_result env) in
  effects_of (Service.handle_delivery env) w
  = [ELogAppend
       (mkServiceCheckLog 0%N (ID svc) o.1.1.1 o.1.1.2
          (Service.latencyMs env) o.1.2 (Service.log_now env));
     EUpdateState (ID svc) o.2; EAck]
  ∧ services (exec (Service.handle_delivery env) w) = services w.
Proof.
  intros Hjob Hsvc Hreq Hupd o.
  destruct (handle_delivery_completed env w job svc Hjob Hsvc Hreq)
    as [Htrace Hdb].
  rewrite (effects_of_app _ _ _ Htrace), Hdb. subst o.
  unfold eval, exec. rewrite UpdateServiceState_run, Hupd. by cbn.
Qed.

Lemma worker_acks_failed_update_witness :
  effects_of (Service.handle_delivery MoreExamples.envA_dbdown)
    Examples.worldA
  = [ELogAppend (mkServiceCheckLog 0%N 1%N "DOWN" 0 12 "timeout" 7);
     EUpdateState 1%N false; EAck]
  ∧ services (exec (Service.handle_delivery MoreExamples.envA_dbdown)
                Examples.worldA)
    = services Examples.worldA.
Proof.
  apply (worker_acks_failed_update MoreExamples.envA_dbdown Examples.worldA
           (Service.job_of Examples.svcA) Examples.svcA "db down").
  - reflexivity.
  - by vm_compute.
  - reflexivity.
  - reflexivity.
Defined.

(** X7. The probe log grows by exactly one row per delivery processed to
    completion whose log insert succeeds: the row is appended at the end,
    carries the id of the resolved service, the status, status code and
    error of the probe, the latency and the instant of the insert, and the
    rows before it are untouched. When the insert fails the log is
    unchanged, and the delivery is still processed to its ack. *)
Theorem worker_appends_one_log_row (env : Service.WorkerEnv) (w : World)
    (job : HealthCheckJob) (svc : ExternalService) :
  Service.unmarshal env = (job, None) →
  eval (Repository.GetServiceByName (Service.lookup_dberr env)
          (ServiceName job)) w = (Some svc, None) →
  Service.new_request_err env = None →
  let o := Service.probe_outcome (Service.do_result env) in
  let w1 := exec (Service.handle_delivery env) w in
  (Service.log_dberr env = None →
   check_logs w1
   = (check_logs w
      ++ [mkServiceCheckLog (N.of_nat (S (length (check_logs w))))
            (ID svc) o.1.1.1 o.1.1.2 (Service.latencyMs env) o.1.2
            (Service.log_now env)])%list)
  ∧ (is_Some (Service.log_dberr env) → check_logs w1 = check_logs w)
  ∧ last (effects_of (Service.handle_delivery env) w) = Some EAck.
Proof.
  intros Hjob Hsvc Hreq o w1. subst o w1.
  rewrite (handle_delivery_completed_logs env w job svc Hjob Hsvc Hreq).
  split; [by intros ->|]. split; [by intros [e ->]|].
  destruct (handle_delivery_completed env w job svc Hjob Hsvc Hreq)
    as [Htrace _].
  rewrite (effects_of_app _ _ _ Htrace). by destruct (_.2.1).
Qed.

Lemma worker_appends_one_log_row_witness :
  check_logs (exec (Service.handle_delivery MoreExamples.envA_ok)
                Examples.worldA)
  = [mkServiceCheckLog 1%N 1%N "UP" 200 12 "" 7].
Proof.
  pose proof (worker_appends_one_log_row MoreExamples.envA_ok Examples.worldA
                (Service.job_of Examples.svcA) Examples.svcA) as H.
  cbn zeta in H.
  destruct H as (Hrow & _); [reflexivity | by vm_compute | reflexivity |].
  by rewrite Hrow.
Defined.

(** X8. The state update of the worker defers the next probe by the
    interval. In a table keyed by the ids of its rows, after a delivery
    processed to completion whose [Save] succeeds, the stored row of the
    service (non-zero id) carries the instant of the update as its last
    check, and, as long as the interval in nanoseconds fits a
    [time.Duration], [shouldRun] accepts that row exactly at the instants
    later than the update plus the interval. *)
Theorem worker_update_defers_schedule (env : Service.WorkerEnv) (w : World)
    (job : HealthCheckJob) (svc : ExternalService) :
  keyed (services w) →
  Service.unmarshal env = (job, None) →
  eval (Repository.GetServiceByName (Service.lookup_dberr env)
          (ServiceName job)) w = (Some svc, None) →
  Service.new_request_err env = None →
  Service.update_dberr env = None →
  ID svc ≠ 0%N →
  Int64.in_range (Interval svc * time.Second) →
  ∃ row,
    services (exec (Service.handle_delivery env) w) !! ID svc = Some row
    ∧ LastCheckedAt row = Some (Service.update_now env)
    ∧ ∀ now, Service.shouldRun row now = true
             ↔ Service.update_now env + Interval svc * 1000000000 < now.
Proof.
  intros Hkeyed Hjob Hsvc Hreq Hupd Hid Hrange.
  assert (Hstored : is_Some (services w !! ID svc)).
  { destruct (GetServiceByName_result (Service.lookup_dberr env)
                (ServiceName job) w) as [(svc' & k & Hres & Hk)|[e Hres]];
      rewrite Hsvc in Hres; [|done].
    injection Hres as <-. by rewrite (Hkeyed _ _ Hk), Hk. }
  destruct (handle_delivery_completed env w job svc Hjob Hsvc Hreq)
    as [_ Hdb].
  rewrite Hdb, Hupd.
  pose proof (UpdateServiceState_saved_row (Service.update_now env) svc
                (Service.probe_outcome (Service.do_result env)).2 w Hid
                Hstored) as Hsaved.
  cbn zeta in Hsaved. destruct Hsaved as (Hrow & Hchk & Hint).
  eexists. split; [exact Hrow|]. split; [exact Hchk|].
  intros now. rewrite shouldRun_due by (by rewrite Hint).
  unfold Spec.due. rewrite Hchk, Hint. split.
  - intros [|(last & [= <-] & Hlt)]; done.
  - intros Hlt. right. by eexists.
Qed.

Lemma worker_update_defers_schedule_witness :
  ∃ row,
    services (exec (Service.handle_delivery MoreExamples.envA_ok)
                Examples.worldA) !! ID Examples.svcA = Some row
    ∧ LastCheckedAt row = Some (Service.update_now MoreExamples.envA_ok)
    ∧ ∀ now, Service.shouldRun row now = true
             ↔ Service.update_now MoreExamples.envA_ok
               + Interval Examples.svcA * 1000000000 < now.
Proof.
  apply (worker_update_defers_schedule MoreExamples.envA_ok Examples.worldA
           (Service.job_of Examples.svcA) Examples.svcA).
  - intros k v Hk. cbn in Hk. apply lookup_singleton_Some in Hk as [<- <-].
    reflexivity.
  - reflexivity.
  - by vm_compute.
  - reflexivity.
  - reflexivity.
  - done.
  - unfold Int64.in_range, Int64.min_int, Int64.max_int, time.Second. cbn. lia.
Defined.

(** ** The scheduler, tick by tick *)

Lemma GetAllServices_run dberr w :
  Repository.GetAllServices dberr w
  = match dberr with
    | Some e => ((None, Some e), w)
    | None =>
        if (length (map_to_list (services w)).*2 =? 0)%nat
        then ((None, Some "no services found"), w)
        else
          let c := foldl (λ c s, <[ID s := s]> c) (cache w)
                     (map_to_list (services w)).*2 in
          ((Some c, None), set_cache (λ _, c) w)
    end.
Proof. by destruct dberr. Qed.

(** The range loop of a tick writes to the trace and to the log only. *)
Lemma tick_loop_frame (env : Service.TickEnv) (l : list ExternalService) w :
  let body := λ s : ExternalService,
    if negb (Service.shouldRun s (Service.tick_now env)) then mret ()
    else
      err ← Service.Schedule
               (Service.publish_err env (Service.job_of s))
               (Service.job_of s);
      match err with
      | Some e => log_Printf (LSchedulerScheduleFailed (Name s) e)
      | None => mret ()
      end in
  services (exec (Service.for_each l body) w) = services w
  ∧ check_logs (exec (Service.for_each l body) w) = check_logs w
  ∧ cache (exec (Service.for_each l body) w) = cache w.
Proof.
  intros body. revert w. induction l as [|s l IH]; intros w; [done|].
  unfold exec in *. cbn [Service.for_each foldr].
  unfold mbind at 1 3 5. unfold M_bind.
  destruct (body s w) as [[] w1] eqn:Hbody.
  change (foldr _ _ l) with (Service.for_each l body).
  destruct (IH w1) as (-> & -> & ->).
  subst body. cbn beta in Hbody.
  destruct (Service.shouldRun s (Service.tick_now env)); cbn in Hbody.
  - revert Hbody. unfold Service.Schedule, mbind, M_bind, emit, log_Printf,
      modify. destruct (Service.publish_err env _); cbn; by intros [= <-].
  - by injection Hbody as <-.
Qed.

(** The effects of a tick, whatever the fetch returns. *)
Lemma scheduler_tick_effects (env : Service.TickEnv) (w : World) :
  let r := eval (Repository.GetAllServices (Service.fetch_dberr env)) w in
  effects_of (Service.scheduler_tick env) w
  = match r.2 with
    | Some _ => []
    | None =>
        (λ s, EPublish (Service.job_of s))
          <$> filter (λ s, Service.shouldRun s (Service.tick_now env))
                (range_map (Service.range_choice env) (default ∅ r.1)).*2
    end.
Proof.
  cbn zeta. apply effects_of_app.
  destruct (GetAllServices_pure_services (Service.fetch_dberr env) w)
    as (_ & Htrace & _).
  unfold exec, eval in *. unfold Service.scheduler_tick, mbind, M_bind.
  destruct (Repository.GetAllServices _ w) as [[svcs [e|]] w1];
    cbn [fst snd] in *.
  - cbn. by rewrite app_nil_r.
  - rewrite <- Htrace. apply (tick_loop_trace env).
Qed.

(** The tables after a tick. *)
Lemma scheduler_tick_world (env : Service.TickEnv) (w : World) :
  let w0 := exec (Repository.GetAllServices (Service.fetch_dberr env)) w in
  services (exec (Service.scheduler_tick env) w) = services w
  ∧ check_logs (exec (Service.scheduler_tick env) w) = check_logs w
  ∧ cache (exec (Service.scheduler_tick env) w) = cache w0.
Proof.
  cbn zeta.
  assert (services (exec (Repository.GetAllServices
                            (Service.fetch_dberr env)) w) = services w
          ∧ check_logs (exec (Repository.GetAllServices
                                (Service.fetch_dberr env)) w) = check_logs w)
    as [Hdb Hlogs].
  { unfold exec. rewrite GetAllServices_run.
    destruct (Service.fetch_dberr env); [done|].
    by destruct (length _ =? 0)%nat. }
  unfold exec in *. unfold Service.scheduler_tick, mbind, M_bind.
  destruct (Repository.GetAllServices _ w) as [[svcs [e|]] w1];
    cbn [fst snd] in *.
  - by cbn.
  - rewrite <- Hdb, <- Hlogs. apply (tick_loop_frame env).
Qed.

(** X9. A tick of the scheduler only reads the registry and only publishes:
    whatever the fetch and the publishes do, the table of services and the
    probe log are as before the tick, and every effect of the tick is the
    publish of a job (no ack, no nack, no state update, no log append, no
    broadcast). *)
Theorem scheduler_tick_read_only (env : Service.TickEnv) (w : World) :
  services (exec (Service.scheduler_tick env) w) = services w
  ∧ check_logs (exec (Service.scheduler_tick env) w) = check_logs w
  ∧ Forall (λ e, ∃ job, e = EPublish job)
      (effects_of (Service.scheduler_tick env) w).
Proof.
  destruct (scheduler_tick_world env w) as (Hdb & Hlogs & _).
  split; [done|]. split; [done|].
  rewrite scheduler_tick_effects. destruct (_.2); [by constructor|].
  apply Forall_fmap, Forall_forall. intros s _. by eexists.
Qed.

(** The log of the range loop of a tick: for each service that
    [shouldRun] accepts, in the order of the range, what its publish
    leaves. *)
Lemma tick_loop_log (env : Service.TickEnv) (l : list ExternalService) w :
  let body := λ s : ExternalService,
    if negb (Service.shouldRun s (Service.tick_now env)) then mret ()
    else
      err ← Service.Schedule
               (Service.publish_err env (Service.job_of s))
               (Service.job_of s);
      match err with
      | Some e => log_Printf (LSchedulerScheduleFailed (Name s) e)
      | None => mret ()
      end in
  log_output (exec (Service.for_each l body) w)
  = (log_output w
     ++ (filter (λ s, Service.shouldRun s (Service.tick_now env)) l
         ≫= schedule_log (Service.publish_err env)))%list.
Proof.
  intros body. revert w. induction l as [|s l IH]; intros w.
  { cbn. by rewrite app_nil_r. }
  unfold exec in *. cbn [Service.for_each foldr].
  unfold mbind at 1. unfold M_bind.
  destruct (body s w) as [[] w1] eqn:Hbody.
  change (foldr _ _ l) with (Service.for_each l body). rewrite IH.
  rewrite filter_cons. subst body. cbn beta in Hbody.
  destruct (Service.shouldRun s (Service.tick_now env)) eqn:Hrun; cbn in Hbody.
  - rewrite decide_True by done. rewrite bind_cons.
    assert (log_output w1
            = (log_output w
               ++ schedule_log (Service.publish_err env) s)%list) as ->.
    { revert Hbody. unfold Service.Schedule, schedule_log, mbind, M_bind,
        emit, log_Printf, modify.
      destruct (Service.publish_err env _); cbn; intros [= <-]; cbn;
        by rewrite <- ?app_assoc. }
    by rewrite <- app_assoc.
  - rewrite decide_False by (by intros []). by injection Hbody as <-.
Qed.

(** X10. A failing publish does not end the round. On a tick whose fetch
    succeeds, one job is published for each service that [shouldRun]
    accepts, in the order in which the map is ranged over, whichever
    publishes fail; a publish that fails is logged, by [Schedule] and by
    the loop, and the loop goes on; a publish that succeeds is logged by
    [Schedule]. With the same order of the range, the jobs published are
    the same for every way the publishes fail. *)
Theorem scheduler_tick_ignores_publish_errors (env : Service.TickEnv)
    (w : World) :
  let r := eval (Repository.GetAllServices (Service.fetch_dberr env)) w in
  let due :=
    filter (λ s, Service.shouldRun s (Service.tick_now env))
      (range_map (Service.range_choice env) (default ∅ r.1)).*2 in
  r.2 = None →
  effects_of (Service.scheduler_tick env) w
  = (λ s, EPublish (Service.job_of s)) <$> due
  ∧ log_output (exec (Service.scheduler_tick env) w)
    = (log_output w ++ (due ≫= schedule_log (Service.publish_err env)))%list
  ∧ (∀ s e, s ∈ due → Service.publish_err env (Service.job_of s) = Some e →
       LSchedulerScheduleFailed (Name s) ("failed to publish job: " +:+ e)
       ∈ drop (length (log_output w))
           (log_output (exec (Service.scheduler_tick env) w)))
  ∧ ∀ perr : HealthCheckJob → option error,
      effects_of
        (Service.scheduler_tick
           (Service.mkTickEnv (Service.fetch_dberr env)
              (Service.tick_now env) perr (Service.range_choice env))) w
      = effects_of (Service.scheduler_tick env) w.
Proof.
  intros r due Hok.
  assert (Hfx : effects_of (Service.scheduler_tick env) w
                = (λ s, EPublish (Service.job_of s)) <$> due).
  { rewrite scheduler_tick_effects. fold r. by rewrite Hok. }
  assert (Hlog : log_output (exec (Service.scheduler_tick env) w)
                 = (log_output w
                    ++ (due ≫= schedule_log (Service.publish_err env)))%list).
  { destruct (GetAllServices_pure_services (Service.fetch_dberr env) w)
      as (_ & _ & Hlog0).
    subst due r. revert Hok Hlog0. unfold exec, eval.
    unfold Service.scheduler_tick, mbind at 1, M_bind.
    destruct (Repository.GetAllServices _ w) as [[svcs [e|]] w1];
      cbn [fst snd]; [done|].
    intros _ <-. apply (tick_loop_log env). }
  split; [done|]. split; [done|]. split.
  - intros s e Hin Herr. rewrite Hlog, drop_app_length.
    apply list_elem_of_bind. exists s. split; [|done].
    unfold schedule_log. rewrite Herr. right. left.
  - intros perr. by rewrite !scheduler_tick_effects.
Qed.

Lemma scheduler_tick_ignores_publish_errors_witness :
  effects_of (Service.scheduler_tick MoreExamples.tick20_failing)
    Examples.worldAB
  = [EPublish (Service.job_of Examples.svcA10)]
  ∧ log_output (exec (Service.scheduler_tick MoreExamples.tick20_failing)
                  Examples.worldAB)
    = [LJobScheduleError (Service.job_of Examples.svcA10) "channel closed";
       LSchedulerScheduleFailed "A"
         "failed to publish job: channel closed"].
Proof.
  destruct (scheduler_tick_ignores_publish_errors
              MoreExamples.tick20_failing Examples.worldAB eq_refl)
    as (Hfx & Hlog & _).
  split.
  - rewrite Hfx. by vm_compute.
  - rewrite Hlog. by vm_compute.
Defined.

(** The loop of the scheduler returns at the cancellation. *)
Lemma Scheduler_tick_step env rest w :
  Service.Scheduler (Service.Tick env :: rest) w
  = Service.Scheduler rest (exec (Service.scheduler_tick env) w).
Proof.
  unfold exec. cbn [Service.Scheduler]. unfold mbind at 1. unfold M_bind.
  by destruct (Service.scheduler_tick env w) as [[] w1].
Qed.

(** X11. Cancellation ends the scheduler: at the first [ctx.Done()] the
    loop returns, and whatever ticks would have followed leave no trace;
    nothing is fetched or published after the cancellation. *)
Theorem Scheduler_stops_on_cancel (pre post : list Service.SchedulerInput)
    (w : World) :
  Service.Scheduler (pre ++ Service.CtxDone :: post) w
  = Service.Scheduler (pre ++ [Service.CtxDone]) w
  ∧ eval (Service.Scheduler (pre ++ Service.CtxDone :: post)) w = true.
Proof.
  revert w. induction pre as [|i pre IH]; intros w; [done|].
  destruct i as [|env]; [done|].
  unfold eval. cbn [app]. rewrite !Scheduler_tick_step.
  apply IH.
Qed.

(** [shouldRun] is monotone in the instant of the tick. *)
Lemma shouldRun_monotone (s : ExternalService) (t1 t2 : time.Time) :
  Service.shouldRun s t1 = true → t1 <= t2 → Service.shouldRun s t2 = true.
Proof.
  unfold Service.shouldRun. destruct (LastCheckedAt s); [|done].
  unfold time.After. rewrite !Z.ltb_lt. lia.
Qed.

(** What the loop of [GetAllServices] leaves under a key: the last row
    found with that id, or else what the cache held. *)
Lemma cache_fill_lookup (rows : list ExternalService) :
  ∀ (c : gmap N ExternalService) (k : N),
    foldl (λ c s, <[ID s := s]> c) c rows !! k
    = match last (filter (λ s, ID s = k) rows) with
      | Some s => Some s
      | None => c !! k
      end.
Proof.
  induction rows as [|x rows IH]; intros c k; [done|].
  cbn [foldl]. rewrite IH, filter_cons.
  destruct (decide (ID x = k)) as [Hk|Hk].
  - rewrite last_cons. destruct (last (filter _ rows)); [done|].
    by rewrite <- Hk, lookup_insert_eq.
  - destruct (last (filter _ rows)); [done|]. by rewrite lookup_insert_ne.
Qed.

Lemma cache_fill_idempotent (rows : list ExternalService)
    (c : gmap N ExternalService) :
  foldl (λ c s, <[ID s := s]> c)
    (foldl (λ c s, <[ID s := s]> c) c rows) rows
  = foldl (λ c s, <[ID s := s]> c) c rows.
Proof.
  apply map_eq. intros k. rewrite !cache_fill_lookup.
  by destruct (last (filter _ rows)).
Qed.

(** A second fetch with no write in between returns the same snapshot. *)
Lemma GetAllServices_again (w w1 : World) :
  services w1 = services w →
  cache w1 = cache (exec (Repository.GetAllServices None) w) →
  (eval (Repository.GetAllServices None) w).2 = None →
  eval (Repository.GetAllServices None) w1
  = eval (Repository.GetAllServices None) w.
Proof.
  unfold eval, exec. rewrite !GetAllServices_run. intros -> ->.
  destruct (length _ =? 0)%nat; [done|]. cbn. intros _.
  unfold MapExternalServices. by rewrite cache_fill_idempotent.
Qed.

(** X12. A job is published again until the worker has stored the check.
    When a tick has published the job of a service, a later tick that
    follows it with no write to the registry in between (its fetch
    succeeding) publishes that job again: the scheduler does not remember
    what it has published, so a slow worker gets duplicate jobs. *)
Theorem scheduler_tick_publishes_again (env1 env2 : Service.TickEnv)
    (w : World) (job : HealthCheckJob) :
  Service.fetch_dberr env1 = None →
  Service.fetch_dberr env2 = None →
  Service.tick_now env1 <= Service.tick_now env2 →
  EPublish job ∈ effects_of (Service.scheduler_tick env1) w →
  EPublish job
  ∈ effects_of (Service.scheduler_tick env2)
      (exec (Service.scheduler_tick env1) w).
Proof.
  intros Hf1 Hf2 Hnow.
  destruct (scheduler_tick_world env1 w) as (Hdb & _ & Hcache).
  rewrite !scheduler_tick_effects, Hf1, Hf2 in *.
  destruct ((eval (Repository.GetAllServices None) w).2) as [e|] eqn:Herr.
  { intros Hin. by apply elem_of_nil in Hin. }
  rewrite (GetAllServices_again w _ Hdb Hcache Herr), Herr.
  rewrite !list_elem_of_fmap. intros (s & Hjob & Hin). exists s.
  split; [done|]. apply list_elem_of_filter in Hin as [Hrun Hin].
  apply list_elem_of_filter. split.
  - apply Is_true_true. apply Is_true_true in Hrun.
    by eapply shouldRun_monotone.
  - revert Hin. by rewrite !range_map_Permutation.
Qed.

Lemma scheduler_tick_publishes_again_witness :
  EPublish (Service.job_of Examples.svcA10)
  ∈ effects_of (Service.scheduler_tick Examples.tick20)
      (exec (Service.scheduler_tick Examples.tick20) Examples.worldAB).
Proof.
  apply (scheduler_tick_publishes_again Examples.tick20 Examples.tick20
           Examples.worldAB (Service.job_of Examples.svcA10)).
  - reflexivity.
  - reflexivity.
  - reflexivity.
  - assert (effects_of (Service.scheduler_tick Examples.tick20)
              Examples.worldAB
            = [EPublish (Service.job_of Examples.svcA10)]) as ->
      by (by vm_compute).
    apply list_elem_of_here.
Defined.

(** ** Repository: lookups *)

Lemma first_row_None P db :
  Repository.first_row P db = None
  ↔ ∀ k v, db !! k = Some v → P v = false.
Proof.
  unfold Repository.first_row. rewrite fmap_None.
  assert (∀ l : list (N * ExternalService),
    foldr (λ (kv : N * ExternalService) acc,
             if P kv.2 then
               match acc with
               | Some (k0, v0) =>
                   if (kv.1 <? k0)%N then Some kv else Some (k0, v0)
               | None => Some kv
               end
             else acc) None l = None
    ↔ ∀ kv, kv ∈ l → P kv.2 = false) as Hlist.
  { induction l as [|kv l IH]; cbn.
    - split; [|done]. intros _ kv Hkv. by apply elem_of_nil in Hkv.
    - destruct (P kv.2) eqn:HP.
      + split.
        * destruct (foldr _ _ l) as [[k0 v0]|]; [|done].
          by destruct (kv.1 <? k0)%N.
        * intros Hall. specialize (Hall kv (list_elem_of_here _ _)).
          congruence.
      + rewrite IH. split.
        * intros Hall kv' Hin. apply elem_of_cons in Hin as [->|Hin]; auto.
        * intros Hall kv' Hin. apply Hall. by right. }
  rewrite Hlist. split.
  - intros Hall k v Hk. by apply (Hall (k, v)), elem_of_map_to_list.
  - intros Hall [k v] Hin. apply (Hall k). by apply elem_of_map_to_list.
Qed.

(** X13. [GetServiceByName] with a non-empty name: it never changes the
    world; what it returns is either a stored row with that name and no
    error, or no row and an error; and when the query itself executes, the
    error is "record not found" exactly when no stored row has the name. *)
Theorem GetServiceByName_by_name (dberr : option error) (name : string)
    (w : World) :
  name ≠ "" →
  let r := eval (Repository.GetServiceByName dberr name) w in
  exec (Repository.GetServiceByName dberr name) w = w
  ∧ ((∃ s k, r = (Some s, None) ∧ services w !! k = Some s ∧ Name s = name)
     ∨ (∃ e, r = (None, Some e)))
  ∧ (dberr = None →
     (r = (None, Some "record not found")
      ↔ ∀ k s, services w !! k = Some s → Name s ≠ name)).
Proof.
  intros Hname. cbn zeta. unfold exec at 1.
  rewrite GetServiceByName_pure. split; [done|].
  unfold eval, Repository.GetServiceByName.
  destruct dberr as [e|]; cbn.
  { split; [right; by eexists | done]. }
  assert (Hempty : (name =? "")%string = false) by by apply String.eqb_neq.
  rewrite Hempty. cbn [orb].
  destruct (Repository.first_row _ _) as [s|] eqn:Hrow.
  - apply first_row_Some in Hrow as (k & Hk & HP).
    apply String.eqb_eq in HP. split.
    + left. by exists s, k.
    + intros _. split; [done|]. intros Hall. by destruct (Hall k s Hk).
  - split; [right; by eexists|]. intros _. split; [|done]. intros _ k s Hk.
    rewrite first_row_None in Hrow. specialize (Hrow k s Hk).
    by apply String.eqb_neq in Hrow.
Qed.

Lemma GetServiceByName_by_name_witness :
  exec (Repository.GetServiceByName None "A") Examples.worldA
  = Examples.worldA.
Proof.
  assert (H : "A" ≠ "") by done.
  exact (proj1 (GetServiceByName_by_name None "A" Examples.worldA H)).
Defined.

(** X14. Registration and lookup by name round-trip. When a valid service
    is registered, its insert succeeds and no row already stored has its
    name, [GetServiceByName] with that name returns, without error, exactly
    the struct that the registration persisted. *)
Theorem register_then_lookup (s : ExternalService) (w : World) :
  Spec.valid_registration s = true →
  (∀ k v, services w !! k = Some v → Name v ≠ Name s) →
  let reg := Repository.RegisterService None (Some s) in
  (eval reg w).2 = None →
  ∃ s1,
    eval reg w = (Some s1, None)
    ∧ Name s1 = Name s
    ∧ eval (Repository.GetServiceByName None (Name s)) (exec reg w)
      = (Some s1, None).
Proof.
  intros Hok Hfresh. cbn zeta. unfold eval at 1 2, exec.
  rewrite (RegisterService_valid None s w Hok).
  destruct (Repository.Save None s w) as [[s1 err] w1] eqn:Hsave.
  cbn [fst snd]. intros ->.
  assert (Hres : (Repository.Save None s w).1.2 = None) by by rewrite Hsave.
  destruct (Save_succeeded None s w Hres) as (_ & Hdb & _).
  destruct (Save_fields None s w Hres) as (Hname1 & _).
  rewrite Hsave in Hdb, Hname1. cbn [fst snd] in Hdb, Hname1.
  exists s1. split; [done|]. split; [done|].
  assert (Hname : Name s ≠ "").
  { unfold Spec.valid_registration in Hok.
    rewrite !andb_true_iff, negb_true_iff in Hok.
    destruct Hok as [[[[[Hn _] _] _] _] _]. by apply String.eqb_neq. }
  assert (Hempty : (Name s =? "")%string = false) by by apply String.eqb_neq.
  unfold eval, Repository.GetServiceByName. rewrite Hempty. cbn [orb].
  rewrite Hdb.
  destruct (Repository.first_row _ _) as [v|] eqn:Hrow.
  - apply first_row_Some in Hrow as (k & Hk & HP).
    apply String.eqb_eq in HP.
    destruct (decide (k = ID s1)) as [->|Hne].
    + rewrite lookup_insert_eq in Hk. by injection Hk as <-.
    + rewrite lookup_insert_ne in Hk by done. by destruct (Hfresh k v Hk).
  - exfalso. rewrite first_row_None in Hrow.
    specialize (Hrow (ID s1) s1).
    rewrite lookup_insert_eq in Hrow. specialize (Hrow eq_refl).
    rewrite Hname1 in Hrow.
    by rewrite String.eqb_refl in Hrow.
Qed.

Lemma register_then_lookup_witness :
  ∃ s1,
    eval (Repository.RegisterService None (Some Examples.svcNew))
      Examples.empty_world = (Some s1, None)
    ∧ Name s1 = Name Examples.svcNew
    ∧ eval (Repository.GetServiceByName None (Name Examples.svcNew))
        (exec (Repository.RegisterService None (Some Examples.svcNew))
           Examples.empty_world)
      = (Some s1, None).
Proof.
  apply (register_then_lookup Examples.svcNew Examples.empty_world).
  - reflexivity.
  - intros k v Hk. cbn in Hk. by rewrite lookup_empty in Hk.
  - reflexivity.
Defined.

(** In a table keyed by the ids of its rows, the loop of [GetAllServices]
    leaves every row under its key, and the old cache entry under a key
    that has no row. *)
Lemma cache_fill_keyed (db : gmap N ExternalService)
    (c : gmap N ExternalService) (k : N) :
  keyed db →
  foldl (λ c s, <[ID s := s]> c) c (map_to_list db).*2 !! k
  = match db !! k with Some s => Some s | None => c !! k end.
Proof.
  intros Hkeyed. rewrite cache_fill_lookup.
  assert (Hrow : ∀ s',
    s' ∈ filter (λ s, ID s = k) (map_to_list db).*2 → db !! k = Some s').
  { intros s' Hin. apply list_elem_of_filter in Hin as [Hid Hin].
    apply list_elem_of_fmap in Hin as ([k' v] & -> & Hin).
    apply elem_of_map_to_list in Hin. cbn in *.
    by rewrite <- Hid, (Hkeyed _ _ Hin). }
  destruct (last _) as [s'|] eqn:Hlast.
  - apply last_Some_elem_of, Hrow in Hlast. by rewrite Hlast.
  - apply last_None in Hlast. destruct (db !! k) as [s|] eqn:Hk; [|done].
    exfalso.
    eapply (filter_nil_not_elem_of _ _ s Hlast); [by eapply Hkeyed|].
    apply list_elem_of_fmap. exists (k, s). split; [done|].
    by apply elem_of_map_to_list.
Qed.

Lemma GetAllServices_nonempty (w : World) :
  services w ≠ ∅ →
  Repository.GetAllServices None w
  = (let c := foldl (λ c s, <[ID s := s]> c) (cache w)
                (map_to_list (services w)).*2 in
     ((Some c, None), set_cache (λ _, c) w)).
Proof.
  intros Hne. rewrite GetAllServices_run.
  assert ((length (map_to_list (services w)).*2 =? 0)%nat = false) as ->;
    [|done].
  apply Nat.eqb_neq. rewrite length_fmap. intros Hlen.
  apply Hne, map_to_list_empty_iff. by apply nil_length_inv.
Qed.

(** X15. What [GetAllServices] returns is the cache, refreshed. For a table
    that is not empty (and keyed by the ids of its rows), a fetch that
    executes returns a map that holds every row of the table under its id
    and, under every other key, what the cache held before: a service that
    is in the cache but has no row any more is still part of the snapshot.
    The same map is the cache afterwards. *)
Theorem GetAllServices_snapshot (w : World) :
  services w ≠ ∅ →
  keyed (services w) →
  ∃ c : gmap N ExternalService,
    eval (Repository.GetAllServices None) w = (Some c, None)
    ∧ cache (exec (Repository.GetAllServices None) w) = c
    ∧ (∀ k s, services w !! k = Some s → c !! k = Some s)
    ∧ (∀ k, services w !! k = None → c !! k = cache w !! k).
Proof.
  intros Hne Hkeyed. unfold eval, exec.
  rewrite (GetAllServices_nonempty w Hne). cbn.
  eexists. split; [done|]. split; [done|]. split.
  - intros k s Hk. unfold MapExternalServices.
    by rewrite (cache_fill_keyed _ _ _ Hkeyed), Hk.
  - intros k Hk. unfold MapExternalServices.
    by rewrite (cache_fill_keyed _ _ _ Hkeyed), Hk.
Qed.

Lemma GetAllServices_snapshot_witness :
  ∃ c : gmap N ExternalService,
    eval (Repository.GetAllServices None) MoreExamples.worldStale
    = (Some c, None)
    ∧ cache (exec (Repository.GetAllServices None) MoreExamples.worldStale)
      = c
    ∧ (∀ k s, services MoreExamples.worldStale !! k = Some s →
              c !! k = Some s)
    ∧ (∀ k, services MoreExamples.worldStale !! k = None →
            c !! k = cache MoreExamples.worldStale !! k).
Proof.
  apply (GetAllServices_snapshot MoreExamples.worldStale).
  - intros Hempty.
    assert (services MoreExamples.worldStale !! 1%N = None) as Hnone
      by (by rewrite Hempty).
    by vm_compute in Hnone.
  - intros k s Hk. cbn in Hk.
    apply lookup_singleton_Some in Hk as [<- <-]. done.
Defined.

(** ** The admin surface *)

(** X16. Listing an empty registry is answered with an error: when the
    table of services has no row, [ListServices] gives the status 500 with
    the error of [GetAllServices] ("no services found" when the query
    executes), not 200 with an empty map, and changes nothing. *)
Theorem ListServices_empty_registry (dberr : option error) (w : World) :
  services w = ∅ →
  ∃ e, Admin.ListServices dberr w = ((500, Admin.ListError e), w)
       ∧ (dberr = None → e = "no services found").
Proof.
  intros Hempty. unfold Admin.ListServices, mbind, M_bind.
  rewrite GetAllServices_run.
  destruct dberr as [e|]; [by exists e|].
  rewrite Hempty, map_to_list_empty. by eexists.
Qed.

Lemma ListServices_empty_registry_witness :
  ∃ e, Admin.ListServices None Examples.empty_world
       = ((500, Admin.ListError e), Examples.empty_world)
       ∧ ((None : option error) = None → e = "no services found").
Proof.
  apply (ListServices_empty_registry None Examples.empty_world). reflexivity.
Defined.

(** X17. Without the credentials of the configuration, the registration
    route does nothing: the request is answered 401 and the world is
    unchanged (no row, no cache entry), whatever the body. With them, the
    route is the handler. The request passes exactly when basic-auth
    credentials are present and both the user and the password are those of
    the configuration. *)
Theorem register_route_requires_credentials (cfg : Admin.AuthConfig)
    (user pass : string) (ok : bool)
    (body : Service.Body) (dberr : option error) (w : World) :
  (Admin.BasicAuthMiddleware cfg (user, pass, ok) = true
   ↔ ok = true ∧ user = Admin.AuthUsername cfg
     ∧ pass = Admin.AuthPassword cfg)
  ∧ (Admin.BasicAuthMiddleware cfg (user, pass, ok) = true →
     Admin.register_route cfg (user, pass, ok) body dberr w
     = Service.RegisterService body dberr w)
  ∧ (Admin.BasicAuthMiddleware cfg (user, pass, ok) = false →
     Admin.register_route cfg (user, pass, ok) body dberr w
     = ((401, Service.JError "unauthorized"), w)
     ∧ Admin.list_route cfg (user, pass, ok) dberr w
       = ((401, Admin.ListError "unauthorized"), w)).
Proof.
  split; [|split].
  - unfold Admin.BasicAuthMiddleware.
    destruct ok, (String.eqb_spec user (Admin.AuthUsername cfg)),
      (String.eqb_spec pass (Admin.AuthPassword cfg)); cbn;
      split; try done; by intros (? & ? & ?).
  - intros Hauth. unfold Admin.register_route. by rewrite Hauth.
  - intros Hauth. unfold Admin.register_route, Admin.list_route.
    by rewrite Hauth.
Qed.

(** ** Pages of the probe log *)

Lemma newer_first_total : Total CheckLogs.newer_first.
Proof. intros a b. unfold CheckLogs.newer_first. lia. Qed.

Lemma newer_first_trans : Transitive CheckLogs.newer_first.
Proof. intros a b c. unfold CheckLogs.newer_first. lia. Qed.

Lemma page_sublist limit offset rows :
  CheckLogs.page limit offset rows `sublist_of` rows.
Proof.
  unfold CheckLogs.page.
  destruct (0 <? offset), (0 <=? limit).
  - etrans; [apply sublist_take | apply sublist_drop].
  - apply sublist_drop.
  - apply sublist_take.
  - done.
Qed.

Lemma page_sorted limit offset rows :
  StronglySorted CheckLogs.newer_first rows →
  StronglySorted CheckLogs.newer_first (CheckLogs.page limit offset rows).
Proof.
  intros Hsorted. unfold CheckLogs.page.
  assert (∀ n l, StronglySorted CheckLogs.newer_first l →
                 StronglySorted CheckLogs.newer_first (take n l)) as Htake.
  { intros n l Hl. rewrite <- (firstn_skipn n l) in Hl.
    by apply StronglySorted_app_1_l in Hl. }
  assert (∀ n l, StronglySorted CheckLogs.newer_first l →
                 StronglySorted CheckLogs.newer_first (drop n l)) as Hdrop.
  { intros n l Hl. rewrite <- (firstn_skipn n l) in Hl.
    by apply StronglySorted_app_1_r in Hl. }
  destruct (0 <? offset), (0 <=? limit); auto.
Qed.

Lemma page_length limit offset rows :
  0 <= limit →
  (length (CheckLogs.page limit offset rows) ≤ Z.to_nat limit)%nat.
Proof.
  intros Hlim. unfold CheckLogs.page.
  destruct (Z.leb_spec 0 limit); [|lia]. rewrite length_take. lia.
Qed.

(** X18. A page of the probe log. A query that executes returns, without
    changing anything, a list in which every entry is a stored entry of the
    requested service, later checks come before earlier ones, and there are
    at most [limit] entries, a limit of 0 standing for 100. With no offset
    and a limit that covers them, the page holds all the entries of the
    service. *)
Theorem GetServiceCheckLogs_page (serviceID : N) (limit offset : Z)
    (w : World) :
  let lim := if limit =? 0 then 100 else limit in
  ∃ page,
    CheckLogs.GetServiceCheckLogs None serviceID limit offset w
    = ((Some page, None), w)
    ∧ (∀ l, l ∈ page → l ∈ check_logs w ∧ ExternalServiceID l = serviceID)
    ∧ StronglySorted CheckLogs.newer_first page
    ∧ (0 <= lim → (length page ≤ Z.to_nat lim)%nat)
    ∧ (offset <= 0 →
       (length (CheckLogs.of_service serviceID (check_logs w))
        ≤ Z.to_nat lim)%nat →
       page ≡ₚ CheckLogs.of_service serviceID (check_logs w)).
Proof.
  cbn zeta. unfold CheckLogs.GetServiceCheckLogs. eexists.
  split; [reflexivity|].
  set (lim := if limit =? 0 then 100 else limit).
  set (rows := merge_sort CheckLogs.newer_first
                 (CheckLogs.of_service serviceID (check_logs w))).
  assert (Hperm : rows ≡ₚ CheckLogs.of_service serviceID (check_logs w))
    by apply merge_sort_Permutation.
  split; [|split; [|split]].
  - intros l Hl.
    apply (λ H, elem_of_sublist _ _ _ H (page_sublist lim offset rows)) in Hl.
    rewrite Hperm in Hl. unfold CheckLogs.of_service in Hl.
    apply list_elem_of_filter in Hl as [? ?]. done.
  - pose proof newer_first_total. pose proof newer_first_trans.
    apply page_sorted, StronglySorted_merge_sort; apply _.
  - apply page_length.
  - intros Hoff Hall. unfold CheckLogs.page.
    destruct (Z.ltb_spec 0 offset); [lia|].
    rewrite <- Hperm in Hall.
    destruct (0 <=? lim); [|done]. by rewrite take_ge.
Qed.

(** X19. The handler of the log pages. A service id that does not parse is
    answered 400 and nothing is queried. Otherwise the page is asked for
    with a limit of at least 1 and an offset of at least 0: the limit of
    the request when it parses to a positive number, whatever its size,
    and 100 otherwise; the offset of the request when it parses to a
    non-negative number, and 0 otherwise. A failing query gives 500; a
    query that executes gives 200 with at most that many entries. *)
Theorem GetHealthCheckLogs_limits (ParseUint : string → option N)
    (Atoi : string → option Z) (serviceID limit offset : string)
    (dberr : option error) (w : World) :
  let lim := match Atoi limit with
             | Some l => if negb (limit =? "")%string && (0 <? l)
                         then l else 100
             | None => 100
             end in
  let off := match Atoi offset with
             | Some o => if negb (offset =? "")%string && (0 <=? o)
                         then o else 0
             | None => 0
             end in
  let h := CheckLogs.GetHealthCheckLogs ParseUint Atoi serviceID limit offset
             dberr in
  1 <= lim ∧ 0 <= off
  ∧ exec h w = w
  ∧ match ParseUint serviceID with
    | None => eval h w = (400, CheckLogs.LogsError "invalid service id")
    | Some id =>
        match dberr with
        | Some e => eval h w = (500, CheckLogs.LogsError e)
        | None =>
            ∃ page,
              eval h w = (200, CheckLogs.LogsPage page)
              ∧ CheckLogs.GetServiceCheckLogs None id lim off w
                = ((Some page, None), w)
              ∧ (length page ≤ Z.to_nat lim)%nat
        end
    end.
Proof.
  cbn zeta.
  set (lim := match Atoi limit with Some l => _ | None => _ end).
  set (off := match Atoi offset with Some o => _ | None => _ end).
  assert (Hlim : 1 <= lim).
  { subst lim. destruct (Atoi limit) as [l|]; [|lia].
    destruct (negb (limit =? "")%string); cbn; [|lia].
    destruct (Z.ltb_spec 0 l); lia. }
  assert (Hoff : 0 <= off).
  { subst off. destruct (Atoi offset) as [o|]; [|lia].
    destruct (negb (offset =? "")%string); cbn; [|lia].
    destruct (Z.leb_spec 0 o); lia. }
  split; [done|]. split; [done|].
  unfold eval, exec, CheckLogs.GetHealthCheckLogs.
  destruct (ParseUint serviceID) as [id|]; [|done].
  assert ((if negb (limit =? "")%string
           then match Atoi limit with
                | Some l => if 0 <? l then l else 100
                | None => 100
                end
           else 100) = lim) as ->.
  { subst lim.
    by destruct (Atoi limit) as [l|], (negb (limit =? "")%string). }
  assert ((if negb (offset =? "")%string
           then match Atoi offset with
                | Some o => if 0 <=? o then o else 0
                | None => 0
                end
           else 0) = off) as ->.
  { subst off.
    by destruct (Atoi offset) as [o|], (negb (offset =? "")%string). }
  unfold mbind, M_bind.
  destruct dberr as [e|]; [done|].
  unfold CheckLogs.GetServiceCheckLogs. cbn. split; [done|]. eexists.
  split; [done|]. split; [done|].
  destruct (Z.eqb_spec lim 0) as [Hz|Hz]; [lia|]. apply page_length. lia.
Qed.

(** ** The address of the broker *)

(** X20. The worker and the scheduler dial the same broker address exactly
    when a virtual host is configured. With an empty virtual host the
    worker's address ends in the default "/", the scheduler's in nothing. *)
Theorem AMQPURL_agrees_with_scheduler (r : Amqp.RabbitMQ) :
  (Amqp.AMQPURL r = Amqp.NewScheduler_url r ↔ Amqp.VHost r ≠ "")
  ∧ (Amqp.VHost r = "" →
     Amqp.AMQPURL r
     = Amqp.amqp_url (Amqp.Username r) (Amqp.Password r) (Amqp.Host r)
         (Amqp.Port r) "/"
     ∧ Amqp.NewScheduler_url r
       = Amqp.amqp_url (Amqp.Username r) (Amqp.Password r) (Amqp.Host r)
           (Amqp.Port r) "").
Proof.
  unfold Amqp.AMQPURL, Amqp.NewScheduler_url.
  destruct (String.eqb_spec (Amqp.VHost r) "") as [Hv|Hv].
  - rewrite Hv. split; [|done]. split; [|done]. intros Heq. exfalso.
    unfold Amqp.amqp_url in Heq.
    repeat apply String.app_inj in Heq. discriminate.
  - split; [done|]. by intros Hv'.
Qed.

(** ** The hub over time *)

Lemma handle_bounded (h h1 : Hub.State) (e : Hub.Event) :
  Hub.wf h → bounded h → Hub.handle h e = Some h1 → bounded h1.
Proof.
  intros Hwf Hb. destruct e as [c|c|msg|c]; cbn [Hub.handle].
  - unfold Hub.HandleWebSocket. cbn [Hub.step]. intros [= <-] c1 ch1.
    cbn. destruct (decide (c1 = c)) as [->|Hne].
    + rewrite lookup_insert_eq. intros [= <-]. cbn. split; [done | lia].
    + rewrite lookup_insert_ne by done. apply Hb.
  - cbn [Hub.step]. destruct (decide (c ∈ Hub.clients h)) as [Hc|Hc];
      [|by intros [= <-]].
    destruct (Hwf c Hc) as (ch & Hch & Hopen).
    rewrite Hch. unfold Hub.close. cbn [mbind option_bind]. rewrite Hopen.
    intros [= <-] c1 ch1. cbn. destruct (decide (c1 = c)) as [->|Hne].
    + rewrite lookup_insert_eq. intros [= <-]. cbn. by apply (Hb c).
    + rewrite lookup_insert_ne by done. apply Hb.
  - cbn [Hub.step].
    destruct (broadcast_clients msg h Hwf) as (h2 & -> & _ & Hout & Hin).
    intros [= <-] c1 ch1 Hch1.
    destruct (decide (c1 ∈ Hub.clients h)) as [Hc|Hc].
    + destruct (Hwf c1 Hc) as (ch & Hch & Hopen).
      destruct (Hb c1 ch Hch) as [Hcap Hlen].
      destruct (Hin c1 ch Hc Hch) as [Hroom Hfull].
      destruct (Nat.ltb_spec (length (Hub.buf ch)) (Hub.cap ch)) as [Hlt|Hge].
      * destruct (Hroom Hlt) as [_ Hsend]. rewrite Hsend in Hch1.
        injection Hch1 as <-. cbn. rewrite length_app. cbn. lia.
      * destruct (Hfull Hge) as [_ Hsend]. rewrite Hsend in Hch1.
        by injection Hch1 as <-.
    + destruct (Hout c1 Hc) as [Hsend _]. rewrite Hsend in Hch1.
      by apply (Hb c1).
  - intros [= <-] c1 ch1. unfold Hub.drain.
    destruct (Hub.send h !! c) as [ch|] eqn:Hch; [|apply Hb].
    unfold Hub.recv. destruct (Hub.buf ch) as [|m rest] eqn:Hbuf; [apply Hb|].
    cbn. destruct (decide (c1 = c)) as [->|Hne].
    + rewrite lookup_insert_eq. intros [= <-]. cbn.
      destruct (Hb c ch Hch) as [Hcap Hlen]. rewrite Hbuf in Hlen.
      cbn in Hlen. split; [done | lia].
    + rewrite lookup_insert_ne by done. apply Hb.
Qed.

(** X21. The hub never panics and never overfills a buffer. Whatever
    sequence of connections, disconnections, broadcasts and receives
    happens to a new hub, every step completes (no send on a closed
    channel, no channel closed twice), every registered subscriber has an
    open channel, and every channel has capacity 256 and holds at most 256
    frames. *)
Theorem hub_never_panics (es : list Hub.Event) :
  ∃ h, Hub.run_events Hub.NewHub es = Some h
       ∧ Hub.wf h ∧ bounded h.
Proof.
  assert (∀ es h, Hub.wf h → bounded h →
            ∃ h1, Hub.run_events h es = Some h1 ∧ Hub.wf h1 ∧ bounded h1)
    as Hgen.
  { clear es. unfold Hub.run_events.
    induction es as [|e es IH]; intros h Hwf Hb; [by exists h|].
    cbn [foldl mbind option_bind].
    destruct (handle_wf h e Hwf) as (h0 & Hh & Hwf0). rewrite Hh.
    apply IH; [done|]. exact (handle_bounded h h0 e Hwf Hb Hh). }
  apply Hgen; [apply NewHub_wf|].
  intros c ch Hch. cbn in Hch. by rewrite lookup_empty in Hch.
Qed.

(** X22. Unregistering closes the channel of a subscriber once. For a
    registered subscriber, [unregister] removes it from the set and closes
    its channel, keeping what is queued; for a client that is not (or no
    longer) registered, such as one the hub has evicted, it does nothing.
    So a second unregister, or the unregister of the reader goroutine after
    an eviction, changes nothing and does not close the channel again. *)
Theorem Unregister_closes_once (h : Hub.State) (c : positive) :
  Hub.wf h →
  ∃ h1,
    Hub.step h (Hub.Unregister c) = Some h1
    ∧ Hub.wf h1
    ∧ (c ∉ Hub.clients h1)
    ∧ Hub.step h1 (Hub.Unregister c) = Some h1
    ∧ (c ∉ Hub.clients h → h1 = h)
    ∧ (∀ ch, c ∈ Hub.clients h → Hub.send h !! c = Some ch →
             Hub.send h1 !! c
             = Some (Hub.mkChan (Hub.buf ch) (Hub.cap ch) true))
    ∧ (∀ c1, c1 ≠ c →
             Hub.send h1 !! c1 = Hub.send h !! c1
             ∧ (c1 ∈ Hub.clients h1 ↔ c1 ∈ Hub.clients h)).
Proof.
  intros Hwf.
  destruct (handle_wf h (Hub.Disconnect c) Hwf) as (h1 & Hstep & Hwf1).
  cbn [Hub.handle] in Hstep. exists h1. split; [done|]. split; [done|].
  revert Hstep. cbn [Hub.step].
  destruct (decide (c ∈ Hub.clients h)) as [Hc|Hc].
  - destruct (Hwf c Hc) as (ch & Hch & Hopen).
    rewrite Hch. unfold Hub.close. cbn [mbind option_bind]. rewrite Hopen.
    intros [= <-]. cbn.
    assert (c ∉ Hub.clients h ∖ {[c]}) as Hout.
    { rewrite elem_of_difference, elem_of_singleton. tauto. }
    split; [done|]. split; [by rewrite decide_False|].
    split; [done|]. split.
    + intros ch' _ [= <-]. by rewrite lookup_insert_eq.
    + intros c1 Hne. rewrite lookup_insert_ne by done. split; [done|].
      rewrite elem_of_difference, elem_of_singleton. tauto.
  - intros [= <-]. split; [done|]. split; [by rewrite decide_False|].
    split; [done|]. split; [done|]. by intros c1 _.
Qed.

Lemma Unregister_closes_once_witness :
  ∃ h1,
    Hub.step Examples.hub2 (Hub.Unregister 2%positive) = Some h1
    ∧ Hub.wf h1
    ∧ (2%positive ∉ Hub.clients h1)
    ∧ Hub.step h1 (Hub.Unregister 2%positive) = Some h1.
Proof.
  destruct (Unregister_closes_once Examples.hub2 2%positive hub2_wf)
    as (h1 & H1 & H2 & H3 & H4 & _).
  by exists h1.
Defined.

(** X23. A client that is not registered gets nothing from a broadcast.
    Over any number of broadcasts, a client outside the subscriber set
    (never registered, unregistered, or evicted) stays outside and its
    channel is left as it is: broadcasting never adds a subscriber and
    never sends to, or closes, the channel of a client it has dropped. *)
Theorem broadcast_skips_dropped_clients (h : Hub.State) (c : positive)
    (msgs : list Hub.Payload) :
  Hub.wf h →
  c ∉ Hub.clients h →
  ∃ h1,
    Hub.Run h (Hub.Broadcast <$> msgs) = Some h1
    ∧ (c ∉ Hub.clients h1)
    ∧ Hub.send h1 !! c = Hub.send h !! c
    ∧ Hub.clients h1 ⊆ Hub.clients h.
Proof.
  revert h. induction msgs as [|m msgs IH]; intros h Hwf Hc.
  { by exists h. }
  cbn [fmap list_fmap]. rewrite Run_cons. cbn [Hub.step].
  destruct (broadcast_clients m h Hwf) as (h0 & -> & Hwf0 & Hout & _).
  cbn [mbind option_bind].
  destruct (Hout c Hc) as [Hsend Hc0].
  destruct (IH h0 Hwf0 Hc0) as (h1 & Hrun & Hc1 & Hsend1 & Hsub).
  exists h1. split; [done|]. split; [done|]. split; [congruence|].
  intros c1 Hin. apply Hsub in Hin.
  destruct (decide (c1 ∈ Hub.clients h)) as [|Hn]; [done|].
  by destruct (Hout c1 Hn).
Qed.

Lemma broadcast_skips_dropped_clients_witness :
  ∃ h1,
    Hub.Run Examples.hub2 (Hub.Broadcast <$> [Examples.ev 3; Examples.ev 4])
    = Some h1
    ∧ (7%positive ∉ Hub.clients h1)
    ∧ Hub.send h1 !! 7%positive = Hub.send Examples.hub2 !! 7%positive
    ∧ Hub.clients h1 ⊆ Hub.clients Examples.hub2.
Proof.
  apply (broadcast_skips_dropped_clients Examples.hub2 7%positive
           [Examples.ev 3; Examples.ev 4] hub2_wf).
  unfold Examples.hub2. cbn.
  rewrite elem_of_union, !elem_of_singleton. by intros [|].
Defined.

(** Unregistering a client leaves every other client alone. *)
Lemma Unregister_other (h h1 : Hub.State) (c c1 : positive) :
  Hub.wf h → Hub.step h (Hub.Unregister c1) = Some h1 → c ≠ c1 →
  Hub.send h1 !! c = Hub.send h !! c
  ∧ (c ∈ Hub.clients h1 ↔ c ∈ Hub.clients h).
Proof.
  intros Hwf Hstep Hne. revert Hstep. cbn [Hub.step].
  destruct (decide (c1 ∈ Hub.clients h)) as [Hc|Hc]; [|by intros [= <-]].
  destruct (Hwf c1 Hc) as (ch & Hch & Hopen).
  rewrite Hch. unfold Hub.close. cbn [mbind option_bind]. rewrite Hopen.
  intros [= <-]. cbn. rewrite lookup_insert_ne by done. split; [done|].
  rewrite elem_of_difference, elem_of_singleton. tauto.
Qed.

(** One event, seen from client [c]: what it receives, what is queued for
    it afterwards, and whether it is still registered. *)
Lemma handle_client (c : positive) (h : Hub.State) (ch : Hub.Chan)
    (e : Hub.Event) :
  Hub.wf h → Hub.send h !! c = Some ch → leaves c e →
  ∃ h1 ch1,
    Hub.handle h e = Some h1 ∧ Hub.wf h1
    ∧ Hub.send h1 !! c = Some ch1
    ∧ (c ∈ Hub.clients h1 → c ∈ Hub.clients h)
    ∧ (c ∈ Hub.clients h1 →
       (Hub.buf ch ++ published [e] = received_at c h e ++ Hub.buf ch1)%list)
    ∧ (c ∉ Hub.clients h1 →
       Hub.buf ch = (received_at c h e ++ Hub.buf ch1)%list).
Proof.
  intros Hwf Hch Hleaves.
  destruct (handle_wf h e Hwf) as (h1 & Hh & Hwf1). exists h1.
  destruct e as [c1|c1|msg|c1]; cbn [Hub.handle] in *; cbn [leaves] in *.
  - unfold Hub.HandleWebSocket in Hh. cbn [Hub.step] in Hh.
    injection Hh as <-. exists ch. cbn.
    rewrite lookup_insert_ne by done. rewrite app_nil_r.
    repeat split; try done.
    intros Hin. apply elem_of_union in Hin as [Hin|Hin]; [|done].
    by apply elem_of_singleton in Hin.
  - destruct (Unregister_other h h1 c c1 Hwf Hh) as [Hsend Hmem];
      [by intros ->|].
    exists ch. cbn. rewrite app_nil_r, Hsend.
    repeat split; try done. by intros ?%Hmem.
  - cbn [Hub.step] in Hh.
    destruct (broadcast_clients msg h Hwf) as (h1' & Hrun & _ & Hout & Hin).
    rewrite Hrun in Hh. injection Hh as ->.
    change (published [Hub.Publish msg]) with [msg]. cbn [received_at app].
    destruct (decide (c ∈ Hub.clients h)) as [Hc|Hc].
    + destruct (Hin c ch Hc Hch) as [Hroom Hfull].
      destruct (Nat.ltb_spec (length (Hub.buf ch)) (Hub.cap ch)) as [Hlt|Hge].
      * destruct (Hroom Hlt) as [Hc1 Hsend].
        exists (Hub.enqueue ch msg). by repeat split.
      * destruct (Hfull Hge) as [Hc1 Hsend].
        exists (Hub.mark_closed ch). by repeat split.
    + destruct (Hout c Hc) as [Hsend Hc1]. exists ch. rewrite Hsend.
      by repeat split.
  - injection Hh as <-. revert Hwf1.
    change (published [Hub.Drain c1]) with (@nil Hub.Payload).
    rewrite app_nil_r. unfold Hub.drain, received_at.
    destruct (decide (c1 = c)) as [->|Hne].
    + rewrite Hch. unfold Hub.recv.
      destruct (Hub.buf ch) as [|m rest] eqn:Hbuf; intros Hwf1.
      * exists ch. rewrite Hbuf. by repeat split.
      * exists (Hub.mkChan rest (Hub.cap ch) (Hub.closed ch)). cbn.
        rewrite lookup_insert_eq. by repeat split.
    + exists ch.
      destruct (Hub.send h !! c1) as [ch'|]; [|by repeat split].
      destruct (Hub.recv ch') as [[m ch1]|]; [|by repeat split].
      cbn. rewrite lookup_insert_ne by done. by repeat split.
Qed.

Lemma published_cons (e : Hub.Event) (es : list Hub.Event) :
  published (e :: es) = (published [e] ++ published es)%list.
Proof. unfold published. by rewrite <- omap_app. Qed.

Lemma run_received_client (c : positive) (es : list Hub.Event) :
  ∀ h ch h2 r,
    Hub.wf h → Hub.send h !! c = Some ch → Forall (leaves c) es →
    run_received c h es = Some (h2, r) →
    ∃ ch2,
      Hub.send h2 !! c = Some ch2
      ∧ (c ∈ Hub.clients h2 →
         c ∈ Hub.clients h
         ∧ (Hub.buf ch ++ published es = r ++ Hub.buf ch2)%list)
      ∧ (c ∉ Hub.clients h → Hub.buf ch = (r ++ Hub.buf ch2)%list)
      ∧ ∃ lost,
          (Hub.buf ch ++ published es = r ++ Hub.buf ch2 ++ lost)%list.
Proof.
  induction es as [|e es IH]; intros h ch h2 r Hwf Hch Hall Hrun.
  { injection Hrun as <- <-. exists ch. cbn. rewrite app_nil_r.
    repeat split; try done. exists []. by rewrite app_nil_r. }
  apply Forall_cons in Hall as [Hleaves Hall].
  destruct (handle_client c h ch e Hwf Hch Hleaves)
    as (h1 & ch1 & Hh & Hwf1 & Hch1 & Hmem & Hin & Hout).
  cbn [run_received] in Hrun. rewrite Hh in Hrun.
  cbn [mbind option_bind] in Hrun.
  destruct (run_received c h1 es) as [[h2' r']|] eqn:Hrest; [|done].
  cbn in Hrun. injection Hrun as -> <-.
  destruct (IH h1 ch1 h2 r' Hwf1 Hch1 Hall Hrest)
    as (ch2 & Hch2 & Hin2 & Hout2 & lost & Hlost).
  exists ch2. split; [done|]. rewrite published_cons.
  split; [|split].
  - intros Hc2. destruct (Hin2 Hc2) as [Hc1 Heq]. split; [by apply Hmem|].
    rewrite app_assoc, (Hin Hc1), <- !app_assoc. by rewrite Heq.
  - intros Hc. assert (c ∉ Hub.clients h1) as Hc1 by (by intros ?%Hmem).
    rewrite (Hout Hc1), (Hout2 Hc1). by rewrite <- app_assoc.
  - destruct (decide (c ∈ Hub.clients h1)) as [Hc1|Hc1].
    + exists lost. rewrite app_assoc, (Hin Hc1), <- !app_assoc.
      by rewrite Hlost.
    + exists (published [e] ++ published es)%list.
      rewrite (Hout Hc1), (Hout2 Hc1). by rewrite <- !app_assoc.
Qed.

(** X24. Frames reach a subscriber in the order of the broadcasts, each
    once. Over any interleaving of broadcasts, receives of writers, and
    connections and disconnections of other clients: what the writer of a
    client has received, followed by what is still queued for it, is a
    prefix of what was queued at the start followed by the frames
    broadcast since; and for a client that is still registered at the end
    it is all of it, so no frame was dropped, repeated or reordered. Frames
    are lost only to an eviction. *)
Theorem subscriber_receives_in_order (c : positive) (es : list Hub.Event)
    (h h2 : Hub.State) (ch : Hub.Chan) (r : list Hub.Payload) :
  Hub.wf h →
  Hub.send h !! c = Some ch →
  Forall (leaves c) es →
  run_received c h es = Some (h2, r) →
  ∃ ch2,
    Hub.send h2 !! c = Some ch2
    ∧ (r ++ Hub.buf ch2)%list `prefix_of` (Hub.buf ch ++ published es)%list
    ∧ (c ∈ Hub.clients h2 →
       (r ++ Hub.buf ch2 = Hub.buf ch ++ published es)%list).
Proof.
  intros Hwf Hch Hall Hrun.
  destruct (run_received_client c es h ch h2 r Hwf Hch Hall Hrun)
    as (ch2 & Hch2 & Hin & _ & lost & Hlost).
  exists ch2. split; [done|]. split.
  - exists lost. by rewrite Hlost, <- app_assoc.
  - intros Hc. by destruct (Hin Hc) as [_ ->].
Qed.

Lemma hub1_wf : Hub.wf MoreExamples.hub1.
Proof.
  intros c Hc. unfold MoreExamples.hub1 in *. cbn in Hc.
  apply elem_of_singleton in Hc as ->. by eexists.
Qed.

Lemma subscriber_receives_in_order_witness :
  ∃ ch2,
    Hub.send MoreExamples.hub1_after !! 1%positive = Some ch2
    ∧ ([Examples.ev 1] ++ Hub.buf ch2)%list
      `prefix_of` ([Examples.ev 1] ++ published MoreExamples.hub1_events)%list
    ∧ (1%positive ∈ Hub.clients MoreExamples.hub1_after →
       ([Examples.ev 1] ++ Hub.buf ch2
        = [Examples.ev 1] ++ published MoreExamples.hub1_events)%list).
Proof.
  apply (subscriber_receives_in_order 1%positive MoreExamples.hub1_events
           MoreExamples.hub1 MoreExamples.hub1_after
           (Hub.mkChan [Examples.ev 1] 256 false) [Examples.ev 1] hub1_wf).
  - by vm_compute.
  - by repeat constructor.
  - by vm_compute.
Defined.

(** ** From registration to the first probe *)

(** X25. A service that has just been registered is probed at the next
    tick. After a registration that is answered 201 (valid, and its insert
    succeeds), of a service that carries no last check, into a table keyed
    by the ids of its rows: the service in the answer is the stored row, and
    every tick whose fetch executes publishes its job, whatever the instant
    of the tick and the order of the range; the job is the one of the
    request (name, url, method and timeout are stored as they were sent). *)
Theorem registered_service_is_scheduled (s : ExternalService) (w : World)
    (env : Service.TickEnv) :
  Spec.valid_registration s = true →
  LastCheckedAt s = None →
  keyed (services w) →
  Service.fetch_dberr env = None →
  let reg := Service.RegisterService (Service.BodyService s) None in
  (eval reg w).1 = 201 →
  ∃ s1,
    eval reg w
    = (201, Service.JRegistered "service registered successfully" s1)
    ∧ services (exec reg w) !! ID s1 = Some s1
    ∧ Service.job_of s1 = Service.job_of s
    ∧ EPublish (Service.job_of s1)
      ∈ effects_of (Service.scheduler_tick env) (exec reg w).
Proof.
  intros Hok Hnever Hkeyed Hfetch reg. subst reg. unfold eval, exec.
  rewrite (RegisterService_handler_valid None s w Hok). cbn zeta.
  destruct ((Repository.Save None s w).1.2) as [e|] eqn:Hres; [done|].
  intros _. cbn [fst snd].
  destruct (Save_succeeded None s w Hres) as (_ & Hdb & _).
  destruct (Save_fields None s w Hres)
    as (Hname & Hurl & _ & Hchk & Hmeth & _ & _ & Htime & _).
  set (s1 := (Repository.Save None s w).1.1) in *.
  set (w1 := set_cache _ _).
  assert (Hdb1 : services w1 = <[ID s1 := s1]> (services w)) by done.
  assert (Hrow : services w1 !! ID s1 = Some s1)
    by (by rewrite Hdb1, lookup_insert_eq).
  assert (Hne : services w1 ≠ ∅).
  { intros Hempty. rewrite Hempty in Hrow. by rewrite lookup_empty in Hrow. }
  assert (Hkeyed1 : keyed (services w1)).
  { intros k v Hk. rewrite Hdb1 in Hk.
    destruct (decide (k = ID s1)) as [->|Hk1].
    - rewrite lookup_insert_eq in Hk. by injection Hk as <-.
    - rewrite lookup_insert_ne in Hk by done. by apply Hkeyed. }
  assert (Hjob : Service.job_of s1 = Service.job_of s).
  { revert Hok. unfold Spec.valid_registration.
    rewrite !andb_true_iff, !negb_true_iff, bool_decide_eq_true, !Z.ltb_lt.
    intros [[[[[_ _] Hmethod] Htimeout] _] _].
    unfold Service.job_of. rewrite Hname, Hurl, Htime by lia.
    rewrite Hmeth; [done|]. intros Hempty. rewrite Hempty in Hmethod.
    rewrite !elem_of_cons in Hmethod.
    destruct Hmethod as [?|[?|[?|[?|[?|Hnil]]]]]; try done.
    by apply elem_of_nil in Hnil. }
  exists s1. split; [done|]. split; [done|]. split; [done|].
  pose proof (scheduler_tick_effects env w1) as Htick. cbn zeta in Htick.
  rewrite Hfetch in Htick. unfold eval in Htick.
  rewrite (GetAllServices_nonempty w1 Hne) in Htick.
  cbn [fst snd default] in Htick. rewrite Htick. clear Htick.
  apply list_elem_of_fmap. exists s1. split; [done|].
  apply list_elem_of_filter. split.
  - apply Is_true_true. unfold Service.shouldRun.
    by rewrite Hchk, Hnever.
  - apply list_elem_of_fmap. exists (ID s1, s1). split; [done|].
    apply range_map_elem_of.
    pose proof (cache_fill_keyed (services w1) (cache w1) (ID s1) Hkeyed1)
      as Hfill.
    rewrite Hrow in Hfill. exact Hfill.
Qed.

Lemma registered_service_is_scheduled_witness :
  ∃ s1,
    eval (Service.RegisterService (Service.BodyService Examples.svcNew) None)
      Examples.empty_world
    = (201, Service.JRegistered "service registered successfully" s1)
    ∧ services
        (exec (Service.RegisterService (Service.BodyService Examples.svcNew)
                 None) Examples.empty_world) !! ID s1 = Some s1
    ∧ Service.job_of s1 = Service.job_of Examples.svcNew
    ∧ EPublish (Service.job_of s1)
      ∈ effects_of (Service.scheduler_tick Examples.tick5)
          (exec (Service.RegisterService (Service.BodyService Examples.svcNew)
                   None) Examples.empty_world).
Proof.
  apply (registered_service_is_scheduled Examples.svcNew Examples.empty_world
           Examples.tick5).
  - reflexivity.
  - reflexivity.
  - intros k v Hk. cbn in Hk. by rewrite lookup_empty in Hk.
  - reflexivity.
  - reflexivity.
Defined.
